(** * Prewrite: the first phase of the two-phase commit of tinykv

    A shallow embedding of [kv/transaction/commands/prewrite.go] and the
    properties of its per-key state machine: the write-conflict check, the
    lock check, the installation of lock and value, and the collection of
    per-key errors by [PrepareWrites]. *)

From Stdlib Require Import ZArith Lia Bool.
From Stdlib Require Import Strings.Byte Strings.String.
From stdpp Require Import base option list countable gmap.

Local Open Scope Z_scope.

(** ** Bytes, keys and machine integers *)

#[global] Instance byte_eq_dec : EqDecision byte := Byte.byte_eq_dec.

#[global] Instance byte_countable : Countable byte :=
  inj_countable Byte.to_N Byte.of_N Byte.of_to_N.

(** A Go [[]byte]. *)
Definition bytes : Type := list byte.

(** Go's [error] interface, by its message; [nil] is [None]. *)
Definition error : Type := string.

(** A value of Go's [int32] is kept as a [Z]; arithmetic on it wraps. *)
Definition int32_min : Z := - 2 ^ 31.
Definition int32_max : Z := 2 ^ 31 - 1.
Definition is_int32 (x : Z) : Prop := int32_min <= x <= int32_max.
Definition wrap32 (x : Z) : Z := (x + 2 ^ 31) mod 2 ^ 32 - 2 ^ 31.

(** ** Protocol messages (package [kvrpcpb])

    Timestamps and TTLs are Go [uint64] values. They are only copied and
    compared, never computed with, so they are kept as [Z] without a
    wrap-around. *)

Module kvrpcpb.

(** Modelled from the spec: the declaration of the operation codes
    ([kvrpcpb.Op], a 32-bit protocol enumeration) is not among the source
    files. The spec names the operations Put and Delete and says that the
    lock kind sits at a fixed numeric offset from the operation code; the
    codes count from zero in the order Put, Del, Rollback, Lock. *)
Definition Op_Put : Z := 0.
Definition Op_Del : Z := 1.
Definition Op_Rollback : Z := 2.
Definition Op_Lock : Z := 3.

Module Mutation.
Record t : Type := mk { Op : Z; Key : bytes; Value : bytes }.
End Mutation.

Module WriteConflict.
Record t : Type :=
  mk { StartTs : Z; ConflictTs : Z; Key : bytes; Primary : bytes }.
End WriteConflict.

Module LockInfo.
(** Modelled from the spec: the lock information a Locked error carries
    (primary key, lock start_ts, TTL), for the key it was asked about. *)
Record t : Type :=
  mk { PrimaryLock : bytes; LockVersion : Z; Key : bytes; LockTtl : Z }.
End LockInfo.

Module KeyError.
(** Modelled from the spec: a key error has the variants Locked,
    Retryable and WriteConflict; an unset variant is [None] (the empty
    string for the reason). *)
Record t : Type :=
  mk { Locked : option LockInfo.t;
       Retryable : string;
       Conflict : option WriteConflict.t }.
End KeyError.

Module PrewriteRequest.
(** The request context (routing metadata) is left out: nothing in the
    command reads it. *)
Record t : Type :=
  mk { Mutations : list Mutation.t;
       PrimaryLock : bytes;
       StartVersion : Z;
       LockTtl : Z }.
End PrewriteRequest.

Module PrewriteResponse.
Record t : Type := mk { Errors : list KeyError.t }.
End PrewriteResponse.

End kvrpcpb.

(** ** The transaction context (package [mvcc]) *)

Module mvcc.

(** Modelled from the spec: the kinds of a write record and of a lock
    ([mvcc.WriteKind], a Go [int]); each is one more than the operation
    code it records. *)
Definition WriteKindPut : Z := 1.
Definition WriteKindDelete : Z := 2.
Definition WriteKindRollback : Z := 3.

Module Lock.
Record t : Type := mk { Primary : bytes; Ts : Z; Ttl : Z; Kind : Z }.

(** Modelled from the spec: [Lock.Info] is not among the source files;
    it reports the lock's primary key, start_ts and TTL for [key]. *)
Definition Info (lock : t) (key : bytes) : kvrpcpb.LockInfo.t :=
  {| kvrpcpb.LockInfo.PrimaryLock := Primary lock;
     kvrpcpb.LockInfo.LockVersion := Ts lock;
     kvrpcpb.LockInfo.Key := key;
     kvrpcpb.LockInfo.LockTtl := Ttl lock |}.
End Lock.

Module Write.
Record t : Type := mk { StartTS : Z; Kind : Z }.
End Write.

(** Modelled from the spec: one staged modification of the write buffer.
    A lock lives in the Lock family under the user key, a value in the
    Default family under (user key, start_ts), a write record in the Write
    family under (user key, commit_ts). *)
Inductive Modify : Type :=
| PutLockM (key : bytes) (lock : Lock.t)
| DeleteLockM (key : bytes)
| PutValueM (key : bytes) (ts : Z) (value : bytes)
| DeleteValueM (key : bytes) (ts : Z)
| PutWriteM (key : bytes) (ts : Z) (write : Write.t).

Definition modify_key (m : Modify) : bytes :=
  match m with
  | PutLockM k _ | DeleteLockM k | PutValueM k _ _
  | DeleteValueM k _ | PutWriteM k _ _ => k
  end.

Definition is_lock_modify (m : Modify) : bool :=
  match m with PutLockM _ _ | DeleteLockM _ => true | _ => false end.
Definition is_value_modify (m : Modify) : bool :=
  match m with PutValueM _ _ _ | DeleteValueM _ _ => true | _ => false end.
Definition is_write_modify (m : Modify) : bool :=
  match m with PutWriteM _ _ _ => true | _ => false end.

(** The read side of a transaction: what the two lookups of the command
    answer for a key, on the snapshot the transaction is bound to. A
    lookup answers as the Go method does, with a result and an error side
    by side. *)
Record StorageReader : Type :=
  mkReader {
    lookupWrite : bytes -> option Write.t * Z * option error;
    lookupLock : bytes -> option Lock.t * option error }.

(** Modelled from the spec: the transaction context of one command, bound
    to a start_ts, with its reader and its buffer of staged writes. *)
Record MvccTxn : Type :=
  mkTxn { StartTS : Z; Reader : StorageReader; writes : list Modify }.

Definition NewTxn (reader : StorageReader) (startTs : Z) : MvccTxn :=
  {| StartTS := startTs; Reader := reader; writes := [] |}.

(** Methods of [*MvccTxn] thread the transaction they may mutate. *)
Definition Txn (A : Type) : Type := MvccTxn -> A * MvccTxn.

#[global] Instance Txn_ret : MRet Txn := fun A (a : A) txn => (a, txn).
#[global] Instance Txn_bind : MBind Txn :=
  fun A B (f : A -> Txn B) (c : Txn A) txn => let (a, txn') := c txn in f a txn'.

Definition getStartTS : Txn Z := fun txn => (StartTS txn, txn).
Definition stage (m : Modify) : Txn unit :=
  fun txn =>
    (tt, {| StartTS := StartTS txn; Reader := Reader txn;
            writes := writes txn ++ [m] |}).

Definition MostRecentWrite (key : bytes)
  : Txn (option Write.t * Z * option error) :=
  fun txn => (lookupWrite (Reader txn) key, txn).
Definition GetLock (key : bytes) : Txn (option Lock.t * option error) :=
  fun txn => (lookupLock (Reader txn) key, txn).

(** Modelled from the spec: the staging operations append to the write
    buffer; values are staged at the transaction's start_ts, a deletion
    as a tombstone. *)
Definition PutLock (key : bytes) (lock : Lock.t) : Txn unit :=
  stage (PutLockM key lock).
Definition PutValue (key value : bytes) : Txn unit :=
  ts ← getStartTS; stage (PutValueM key ts value).
Definition DeleteValue (key : bytes) : Txn unit :=
  ts ← getStartTS; stage (DeleteValueM key ts).

End mvcc.


(** ** The Prewrite command (package [commands]) *)

Module commands.
Import kvrpcpb mvcc.

(** [CommandBase] without its context. *)
Record CommandBase : Type := mkCommandBase { startTs : Z }.

Record Prewrite : Type :=
  mkPrewrite { base : CommandBase; request : PrewriteRequest.t }.

Definition NewPrewrite (request : PrewriteRequest.t) : Prewrite :=
  {| base := {| startTs := PrewriteRequest.StartVersion request |};
     request := request |}.

(** The conflict metadata both per-key errors carry. *)
Definition conflictOf (p : Prewrite) (startTS conflictTs : Z) (key : bytes)
  : WriteConflict.t :=
  {| WriteConflict.StartTs := startTS;
     WriteConflict.ConflictTs := conflictTs;
     WriteConflict.Key := key;
     WriteConflict.Primary := PrewriteRequest.PrimaryLock (request p) |}.

(** [prewriteMutation] prewrites [mut] to the transaction. The result is the
    Go pair: a key error or [nil], and an internal error or [nil]. The debug
    log line has no effect on either and is left out. [mut.Op + 1] is
    computed on the 32-bit operation code and then widened to the kind. *)
Definition prewriteMutation (p : Prewrite) (mut : Mutation.t)
  : Txn (option KeyError.t * option error) :=
  let key := Mutation.Key mut in
  startTS ← getStartTS;
  '(write, commitTs, err) ← MostRecentWrite key;
  if bool_decide (is_Some write) && (startTS <=? commitTs) then
    mret (Some {| KeyError.Locked := None;
                  KeyError.Retryable := EmptyString;
                  KeyError.Conflict :=
                    Some (conflictOf p startTS commitTs key) |}, None)
  else
    match err with
    | Some e => mret (None, Some e)
    | None =>
        '(keyLock, err) ← GetLock key;
        match keyLock with
        | Some keyLock =>
            if negb (Lock.Ts keyLock =? startTS) then
              mret (Some {| KeyError.Locked := Some (Lock.Info keyLock key);
                            KeyError.Retryable := EmptyString;
                            KeyError.Conflict :=
                              Some (conflictOf p startTS (Lock.Ts keyLock) key) |},
                    None)
            else mret (None, None)
        | None =>
            let keyLock :=
              {| Lock.Primary := PrewriteRequest.PrimaryLock (request p);
                 Lock.Ts := startTS;
                 Lock.Ttl := PrewriteRequest.LockTtl (request p);
                 Lock.Kind := wrap32 (Mutation.Op mut + 1) |} in
            PutLock key keyLock;;
            (if Mutation.Op mut =? Op_Put then PutValue key (Mutation.Value mut)
             else if Mutation.Op mut =? Op_Del then DeleteValue key
             else mret tt);;
            mret (None, None)
        end
    end.

(** The loop of [PrepareWrites] over the mutations still to prewrite, with
    the response built so far. *)
Fixpoint prewriteAll (p : Prewrite) (muts : list Mutation.t)
    (response : PrewriteResponse.t)
  : Txn (option PrewriteResponse.t * option error) :=
  match muts with
  | [] => mret (Some response, None)
  | m :: muts' =>
      '(keyError, err) ← prewriteMutation p m;
      match keyError, err with
      | Some keyError, _ =>
          prewriteAll p muts'
            {| PrewriteResponse.Errors :=
                 PrewriteResponse.Errors response ++ [keyError] |}
      | None, Some err => mret (None, Some err)
      | None, None => prewriteAll p muts' response
      end
  end.

Definition PrepareWrites (p : Prewrite)
  : Txn (option PrewriteResponse.t * option error) :=
  prewriteAll p (PrewriteRequest.Mutations (request p))
    {| PrewriteResponse.Errors := [] |}.

Definition WillWrite (p : Prewrite) : list bytes :=
  fold_left (fun result m => result ++ [Mutation.Key m])
    (PrewriteRequest.Mutations (request p)) [].

End commands.

(** ** The storage a command reads from and is flushed to *)

Module storage.
Import mvcc.

(** Modelled from the spec: the storage engine is outside the source files.
    It is a keyed store of three families: at most one lock per user key,
    values under (user key, start_ts), write records under
    (user key, commit_ts). *)
Record MemStorage : Type :=
  mkStorage {
    CfLock : gmap bytes Lock.t;
    CfDefault : gmap (bytes * Z) bytes;
    CfWrite : gmap (bytes * Z) Write.t }.

(** Modelled from the spec: applying one staged modification. *)
Definition applyModify (s : MemStorage) (m : Modify) : MemStorage :=
  match m with
  | PutLockM k l =>
      {| CfLock := <[k := l]> (CfLock s);
         CfDefault := CfDefault s; CfWrite := CfWrite s |}
  | DeleteLockM k =>
      {| CfLock := delete k (CfLock s);
         CfDefault := CfDefault s; CfWrite := CfWrite s |}
  | PutValueM k ts v =>
      {| CfLock := CfLock s;
         CfDefault := <[(k, ts) := v]> (CfDefault s); CfWrite := CfWrite s |}
  | DeleteValueM k ts =>
      {| CfLock := CfLock s;
         CfDefault := delete (k, ts) (CfDefault s); CfWrite := CfWrite s |}
  | PutWriteM k ts w =>
      {| CfLock := CfLock s;
         CfDefault := CfDefault s; CfWrite := <[(k, ts) := w]> (CfWrite s) |}
  end.

(** Modelled from the spec: the staged batch is applied as a whole, in the
    order it was staged. *)
Definition flush (s : MemStorage) (batch : list Modify) : MemStorage :=
  foldl applyModify s batch.

(** Modelled from the spec: the write record with the largest commit_ts of
    a key, if the key has any history. *)
Definition newerWrite (key : bytes) (kt : bytes * Z) (w : Write.t)
    (acc : option (Z * Write.t)) : option (Z * Write.t) :=
  if decide (kt.1 = key) then
    match acc with
    | Some (ts, _) => if ts <? kt.2 then Some (kt.2, w) else acc
    | None => Some (kt.2, w)
    end
  else acc.

Definition mostRecent (ws : gmap (bytes * Z) Write.t) (key : bytes)
  : option (Z * Write.t) :=
  map_fold (newerWrite key) None ws.

(** Modelled from the spec: the reader of a snapshot of the store. Lookups
    on the in-memory store do not fail. *)
Definition readerOf (s : MemStorage) : StorageReader :=
  {| lookupWrite := fun key =>
       match mostRecent (CfWrite s) key with
       | Some (ts, w) => (Some w, ts, None)
       | None => (None, 0, None)
       end;
     lookupLock := fun key => (CfLock s !! key, None) |}.

End storage.

(** ** What [PrepareWrites] is specified against *)

Module PrewriteSpec.
Import kvrpcpb mvcc commands.

(** The outcome of one mutation prewritten on its own. *)
Definition verdict (p : Prewrite) (txn : MvccTxn) (mut : Mutation.t)
  : option KeyError.t * option error :=
  (prewriteMutation p mut txn).1.

(** The modifications staged on top of the buffer of [txn]. *)
Definition stagedSince (txn txn' : MvccTxn) : list Modify :=
  drop (length (writes txn)) (writes txn').

(** What one mutation prewritten on its own stages. *)
Definition stagedBy (p : Prewrite) (txn : MvccTxn) (mut : Mutation.t)
  : list Modify :=
  stagedSince txn (prewriteMutation p mut txn).2.

(** A modification [prewriteMutation] may stage for [key] at [ts]: the lock
    of the transaction or a change of its value, never a deleted lock or a
    write record. *)
Definition prewriteShaped (key : bytes) (ts : Z) (m : Modify) : Prop :=
  match m with
  | PutLockM k lock => k = key /\ Lock.Ts lock = ts
  | PutValueM k ts' _ | DeleteValueM k ts' => k = key /\ ts' = ts
  | DeleteLockM _ | PutWriteM _ _ _ => False
  end.

(** The transaction with [staged] appended to its buffer. *)
Definition extend (txn : MvccTxn) (staged : list Modify) : MvccTxn :=
  {| StartTS := StartTS txn; Reader := Reader txn;
     writes := writes txn ++ staged |}.

(** The mutation meets an internal error. *)
Definition internalError (p : Prewrite) (txn : MvccTxn) (mut : Mutation.t)
  : Prop :=
  exists e, verdict p txn mut = (None, Some e).

(** [txn0] runs on the snapshot of [txn], at the same start_ts. *)
Definition onSnapshot (txn txn0 : MvccTxn) : Prop :=
  StartTS txn0 = StartTS txn /\ Reader txn0 = Reader txn.

(** Two transactions that read the same answers for the keys of [keys]. *)
Definition agreeOn (keys : list bytes) (txn1 txn2 : MvccTxn) : Prop :=
  StartTS txn1 = StartTS txn2 /\
  forall k, k ∈ keys ->
    lookupWrite (Reader txn1) k = lookupWrite (Reader txn2) k /\
    lookupLock (Reader txn1) k = lookupLock (Reader txn2) k.

End PrewriteSpec.

(** ** A scenario: transaction 10 writes key "a" *)

Module Scenario.
Import kvrpcpb mvcc commands storage.

Definition keyA : bytes := [x61].
Definition keyB : bytes := [x62].
Definition valueV1 : bytes := [x76; x31].

Definition putA : Mutation.t :=
  {| Mutation.Op := Op_Put; Mutation.Key := keyA; Mutation.Value := valueV1 |}.
Definition delB : Mutation.t :=
  {| Mutation.Op := Op_Del; Mutation.Key := keyB; Mutation.Value := [] |}.
Definition lockA : Mutation.t :=
  {| Mutation.Op := Op_Lock; Mutation.Key := keyA; Mutation.Value := [] |}.
Definition lastOpA : Mutation.t :=
  {| Mutation.Op := int32_max; Mutation.Key := keyA; Mutation.Value := [] |}.

Definition requestOf (muts : list Mutation.t) : PrewriteRequest.t :=
  {| PrewriteRequest.Mutations := muts;
     PrewriteRequest.PrimaryLock := keyA;
     PrewriteRequest.StartVersion := 10;
     PrewriteRequest.LockTtl := 3000 |}.

Definition prewriteOf (muts : list Mutation.t) : Prewrite :=
  NewPrewrite (requestOf muts).

Definition emptyStore : MemStorage :=
  {| CfLock := ∅; CfDefault := ∅; CfWrite := ∅ |}.

(** Key "a" was committed at 11 by transaction 9, and earlier at 5. *)
Definition committedStore : MemStorage :=
  {| CfLock := ∅; CfDefault := ∅;
     CfWrite :=
       <[(keyA, 11) := {| Write.StartTS := 9; Write.Kind := WriteKindPut |}]>
         (<[(keyA, 5) := {| Write.StartTS := 4; Write.Kind := WriteKindPut |}]>
            ∅) |}.

Definition lockOf (ts : Z) : Lock.t :=
  {| Lock.Primary := keyB; Lock.Ts := ts; Lock.Ttl := 500;
     Lock.Kind := WriteKindPut |}.

(** Key "a" is locked by the transaction that started at [ts]. *)
Definition lockedStore (ts : Z) : MemStorage :=
  {| CfLock := {[ keyA := lockOf ts ]}; CfDefault := ∅; CfWrite := ∅ |}.

(** A reader whose write lookup fails in the engine for [key]. *)
Definition writeLookupFailsOn (key : bytes) : StorageReader :=
  {| lookupWrite := fun k =>
       if decide (k = key) then (None, 0, Some "engine failure"%string)
       else (None, 0, None);
     lookupLock := fun _ => (None, None) |}.

(** A reader whose lock lookup fails in the engine. *)
Definition lockLookupFails : StorageReader :=
  {| lookupWrite := fun _ => (None, 0, None);
     lookupLock := fun _ => (None, Some "engine failure"%string) |}.

(** A reader whose write lookup answers a newer write and an error at once. *)
Definition writeLookupConflictAndError : StorageReader :=
  {| lookupWrite := fun _ =>
       (Some {| Write.StartTS := 9; Write.Kind := WriteKindPut |}, 11,
        Some "engine failure"%string);
     lookupLock := fun _ => (None, None) |}.

End Scenario.

(** ** Invariants of what a prewrite stages and answers *)

Module PrewriteInvariants.
Import kvrpcpb mvcc commands PrewriteSpec.

(** A staged modification as [PrepareWrites] makes them: the lock of the
    transaction on the key of a mutation, the value of a Put or the
    tombstone of a Delete at the start_ts of the transaction. *)
Definition stagedOk (p : Prewrite) (txn : MvccTxn) (m : Modify) : Prop :=
  match m with
  | PutLockM k lock =>
      k ∈ WillWrite p
      /\ Lock.Primary lock = PrewriteRequest.PrimaryLock (request p)
      /\ Lock.Ts lock = StartTS txn
      /\ Lock.Ttl lock = PrewriteRequest.LockTtl (request p)
  | PutValueM k ts v =>
      ts = StartTS txn
      /\ exists mut, mut ∈ PrewriteRequest.Mutations (request p)
           /\ Mutation.Key mut = k /\ Mutation.Op mut = Op_Put
           /\ Mutation.Value mut = v
  | DeleteValueM k ts =>
      ts = StartTS txn
      /\ exists mut, mut ∈ PrewriteRequest.Mutations (request p)
           /\ Mutation.Key mut = k /\ Mutation.Op mut = Op_Del
  | DeleteLockM _ | PutWriteM _ _ _ => False
  end.

(** A key error as [PrepareWrites] reports them: always with the conflict
    metadata of this transaction for a key of the batch; without lock
    information the conflicting timestamp is not older than the start_ts,
    with lock information it is the start_ts of that lock, another
    transaction's. *)
Definition keyErrorOk (p : Prewrite) (txn : MvccTxn) (ke : KeyError.t) : Prop :=
  KeyError.Retryable ke = EmptyString
  /\ exists c,
       KeyError.Conflict ke = Some c
       /\ WriteConflict.StartTs c = StartTS txn
       /\ WriteConflict.Primary c = PrewriteRequest.PrimaryLock (request p)
       /\ WriteConflict.Key c ∈ WillWrite p
       /\ match KeyError.Locked ke with
          | None => StartTS txn <= WriteConflict.ConflictTs c
          | Some info =>
              LockInfo.LockVersion info = WriteConflict.ConflictTs c
              /\ LockInfo.Key info = WriteConflict.Key c
              /\ WriteConflict.ConflictTs c <> StartTS txn
          end.

(** The request with another start version. *)
Definition withStartVersion (r : PrewriteRequest.t) (ts : Z)
  : PrewriteRequest.t :=
  {| PrewriteRequest.Mutations := PrewriteRequest.Mutations r;
     PrewriteRequest.PrimaryLock := PrewriteRequest.PrimaryLock r;
     PrewriteRequest.StartVersion := ts;
     PrewriteRequest.LockTtl := PrewriteRequest.LockTtl r |}.

(** The request with other mutations. *)
Definition withMutations (r : PrewriteRequest.t) (muts : list Mutation.t)
  : PrewriteRequest.t :=
  {| PrewriteRequest.Mutations := muts;
     PrewriteRequest.PrimaryLock := PrewriteRequest.PrimaryLock r;
     PrewriteRequest.StartVersion := PrewriteRequest.StartVersion r;
     PrewriteRequest.LockTtl := PrewriteRequest.LockTtl r |}.

(** The transaction of another start_ts on the same snapshot and buffer. *)
Definition atStartTS (txn : MvccTxn) (ts : Z) : MvccTxn :=
  {| StartTS := ts; Reader := Reader txn; writes := writes txn |}.

(** The five ways through [prewriteMutation]. *)
Inductive Path (p : Prewrite) (mut : Mutation.t) (txn : MvccTxn) : Prop :=
| PathConflict w cts err :
    lookupWrite (Reader txn) (Mutation.Key mut) = (Some w, cts, err) ->
    StartTS txn <= cts -> Path p mut txn
| PathInternal w cts e :
    lookupWrite (Reader txn) (Mutation.Key mut) = (w, cts, Some e) ->
    w = None \/ cts < StartTS txn -> Path p mut txn
| PathLocked w cts lock err :
    lookupWrite (Reader txn) (Mutation.Key mut) = (w, cts, None) ->
    w = None \/ cts < StartTS txn ->
    lookupLock (Reader txn) (Mutation.Key mut) = (Some lock, err) ->
    Lock.Ts lock <> StartTS txn -> Path p mut txn
| PathOwnLock w cts lock err :
    lookupWrite (Reader txn) (Mutation.Key mut) = (w, cts, None) ->
    w = None \/ cts < StartTS txn ->
    lookupLock (Reader txn) (Mutation.Key mut) = (Some lock, err) ->
    Lock.Ts lock = StartTS txn -> Path p mut txn
| PathInstall w cts err :
    lookupWrite (Reader txn) (Mutation.Key mut) = (w, cts, None) ->
    w = None \/ cts < StartTS txn ->
    lookupLock (Reader txn) (Mutation.Key mut) = (None, err) ->
    Path p mut txn.

End PrewriteInvariants.

(** * Properties *)

Module PrewriteProofs.
Import kvrpcpb mvcc commands storage PrewriteSpec Scenario.

Ltac run_txn :=
  unfold prewriteMutation, MostRecentWrite, GetLock, PutLock, PutValue,
    DeleteValue, getStartTS, stage, mbind, mret, Txn_bind, Txn_ret; simpl.

Lemma conflict_branch p mut txn w cts err :
  lookupWrite (Reader txn) (Mutation.Key mut) = (Some w, cts, err) ->
  StartTS txn <= cts ->
  prewriteMutation p mut txn =
    ((Some {| KeyError.Locked := None;
              KeyError.Retryable := EmptyString;
              KeyError.Conflict :=
                Some (conflictOf p (StartTS txn) cts (Mutation.Key mut)) |},
      None), txn).
Proof.
  intros Hw Hts. run_txn. rewrite Hw.
  rewrite bool_decide_eq_true_2 by eauto.
  apply Z.leb_le in Hts. rewrite Hts. reflexivity.
Qed.

Lemma conflict_check_passes txn (w : option Write.t) cts :
  w = None \/ cts < StartTS txn ->
  bool_decide (is_Some w) && (StartTS txn <=? cts) = false.
Proof.
  intros [-> | Hlt].
  - reflexivity.
  - apply andb_false_iff. right. apply Z.leb_gt. exact Hlt.
Qed.

Lemma internal_error_branch p mut txn w cts e :
  lookupWrite (Reader txn) (Mutation.Key mut) = (w, cts, Some e) ->
  w = None \/ cts < StartTS txn ->
  prewriteMutation p mut txn = ((None, Some e), txn).
Proof.
  intros Hw Hc. run_txn. rewrite Hw.
  rewrite conflict_check_passes by exact Hc. reflexivity.
Qed.

Lemma locked_branch p mut txn w cts lock err :
  lookupWrite (Reader txn) (Mutation.Key mut) = (w, cts, None) ->
  w = None \/ cts < StartTS txn ->
  lookupLock (Reader txn) (Mutation.Key mut) = (Some lock, err) ->
  Lock.Ts lock <> StartTS txn ->
  prewriteMutation p mut txn =
    ((Some {| KeyError.Locked := Some (Lock.Info lock (Mutation.Key mut));
              KeyError.Retryable := EmptyString;
              KeyError.Conflict :=
                Some (conflictOf p (StartTS txn) (Lock.Ts lock)
                        (Mutation.Key mut)) |},
      None), txn).
Proof.
  intros Hw Hc Hl Hts. run_txn. rewrite Hw.
  rewrite conflict_check_passes by exact Hc. rewrite Hl.
  apply Z.eqb_neq in Hts. rewrite Hts. reflexivity.
Qed.

Lemma own_lock_branch p mut txn w cts lock err :
  lookupWrite (Reader txn) (Mutation.Key mut) = (w, cts, None) ->
  w = None \/ cts < StartTS txn ->
  lookupLock (Reader txn) (Mutation.Key mut) = (Some lock, err) ->
  Lock.Ts lock = StartTS txn ->
  prewriteMutation p mut txn = ((None, None), txn).
Proof.
  intros Hw Hc Hl Hts. run_txn. rewrite Hw.
  rewrite conflict_check_passes by exact Hc. rewrite Hl.
  apply Z.eqb_eq in Hts. rewrite Hts. reflexivity.
Qed.

(** Without a lock on the key (whatever error the lock lookup answers),
    the lock is staged, then what the [switch] on the operation stages. *)
Lemma install_branch p mut txn w cts err :
  lookupWrite (Reader txn) (Mutation.Key mut) = (w, cts, None) ->
  w = None \/ cts < StartTS txn ->
  lookupLock (Reader txn) (Mutation.Key mut) = (None, err) ->
  prewriteMutation p mut txn =
    ((None, None),
     {| StartTS := StartTS txn; Reader := Reader txn;
        writes :=
          writes txn ++
          PutLockM (Mutation.Key mut)
            {| Lock.Primary := PrewriteRequest.PrimaryLock (request p);
               Lock.Ts := StartTS txn;
               Lock.Ttl := PrewriteRequest.LockTtl (request p);
               Lock.Kind := wrap32 (Mutation.Op mut + 1) |} ::
          (if Mutation.Op mut =? Op_Put
           then [PutValueM (Mutation.Key mut) (StartTS txn) (Mutation.Value mut)]
           else if Mutation.Op mut =? Op_Del
                then [DeleteValueM (Mutation.Key mut) (StartTS txn)]
                else []) |}).
Proof.
  intros Hw Hc Hl. run_txn. rewrite Hw.
  rewrite conflict_check_passes by exact Hc. rewrite Hl.
  destruct (Mutation.Op mut =? Op_Put); [|destruct (Mutation.Op mut =? Op_Del)];
    simpl; rewrite <- ?app_assoc; reflexivity.
Qed.

Lemma stagedSince_same txn : stagedSince txn txn = [].
Proof. unfold stagedSince. apply drop_all. Qed.

Lemma stagedSince_app txn l :
  stagedSince txn
    {| StartTS := StartTS txn; Reader := Reader txn;
       writes := writes txn ++ l |} = l.
Proof. unfold stagedSince. simpl. apply drop_app_length. Qed.

(** C1. If the most recent write of the key was committed at or after the
    start_ts of the transaction, [prewriteMutation] answers a key error that
    is exactly the write conflict {start_ts, conflicting commit_ts, key,
    primary key of the request}, with no lock information, and leaves the
    transaction as it was: no lock, no value, nothing at all is staged. *)
Theorem prewrite_write_conflict p mut txn w commitTs err :
  lookupWrite (Reader txn) (Mutation.Key mut) = (Some w, commitTs, err) ->
  StartTS txn <= commitTs ->
  prewriteMutation p mut txn =
    ((Some {| KeyError.Locked := None;
              KeyError.Retryable := EmptyString;
              KeyError.Conflict :=
                Some {| WriteConflict.StartTs := StartTS txn;
                        WriteConflict.ConflictTs := commitTs;
                        WriteConflict.Key := Mutation.Key mut;
                        WriteConflict.Primary :=
                          PrewriteRequest.PrimaryLock (request p) |} |},
      None), txn)
  /\ stagedSince txn (prewriteMutation p mut txn).2 = [].
Proof.
  intros Hw Hts.
  rewrite (conflict_branch p mut txn w commitTs err Hw Hts).
  split; [reflexivity | apply stagedSince_same].
Qed.

Lemma prewrite_write_conflict_witness :
  let txn := NewTxn (readerOf committedStore) 10 in
  prewriteMutation (prewriteOf [putA]) putA txn =
    ((Some {| KeyError.Locked := None;
              KeyError.Retryable := EmptyString;
              KeyError.Conflict :=
                Some {| WriteConflict.StartTs := 10;
                        WriteConflict.ConflictTs := 11;
                        WriteConflict.Key := keyA;
                        WriteConflict.Primary := keyA |} |},
      None), txn)
  /\ stagedSince txn (prewriteMutation (prewriteOf [putA]) putA txn).2 = [].
Proof.
  intros txn.
  apply (prewrite_write_conflict (prewriteOf [putA]) putA txn
           {| Write.StartTS := 9; Write.Kind := WriteKindPut |} 11 None).
  - vm_compute. reflexivity.
  - simpl. lia.
Defined.

(** C2. If the conflict check passes and the key carries a lock whose
    start_ts differs from that of the transaction, [prewriteMutation]
    answers a key error whose Locked part is the information of that lock
    (its primary key, its start_ts, its TTL, for this key) and whose
    Conflict part is the same metadata as for a write conflict, with the
    start_ts of the lock as the conflicting timestamp. Nothing is staged:
    the lock stays and no value is written. *)
Theorem prewrite_key_locked p mut txn w commitTs lock err :
  lookupWrite (Reader txn) (Mutation.Key mut) = (w, commitTs, None) ->
  w = None \/ commitTs < StartTS txn ->
  lookupLock (Reader txn) (Mutation.Key mut) = (Some lock, err) ->
  Lock.Ts lock <> StartTS txn ->
  prewriteMutation p mut txn =
    ((Some {| KeyError.Locked :=
                Some {| LockInfo.PrimaryLock := Lock.Primary lock;
                        LockInfo.LockVersion := Lock.Ts lock;
                        LockInfo.Key := Mutation.Key mut;
                        LockInfo.LockTtl := Lock.Ttl lock |};
              KeyError.Retryable := EmptyString;
              KeyError.Conflict :=
                Some {| WriteConflict.StartTs := StartTS txn;
                        WriteConflict.ConflictTs := Lock.Ts lock;
                        WriteConflict.Key := Mutation.Key mut;
                        WriteConflict.Primary :=
                          PrewriteRequest.PrimaryLock (request p) |} |},
      None), txn)
  /\ stagedSince txn (prewriteMutation p mut txn).2 = [].
Proof.
  intros Hw Hc Hl Hts.
  rewrite (locked_branch p mut txn w commitTs lock err Hw Hc Hl Hts).
  split; [reflexivity | apply stagedSince_same].
Qed.

Lemma prewrite_key_locked_witness :
  let txn := NewTxn (readerOf (lockedStore 12)) 10 in
  prewriteMutation (prewriteOf [putA]) putA txn =
    ((Some {| KeyError.Locked :=
                Some {| LockInfo.PrimaryLock := keyB;
                        LockInfo.LockVersion := 12;
                        LockInfo.Key := keyA;
                        LockInfo.LockTtl := 500 |};
              KeyError.Retryable := EmptyString;
              KeyError.Conflict :=
                Some {| WriteConflict.StartTs := 10;
                        WriteConflict.ConflictTs := 12;
                        WriteConflict.Key := keyA;
                        WriteConflict.Primary := keyA |} |},
      None), txn)
  /\ stagedSince txn (prewriteMutation (prewriteOf [putA]) putA txn).2 = [].
Proof.
  intros txn.
  apply (prewrite_key_locked (prewriteOf [putA]) putA txn None 0 (lockOf 12)
           None).
  - vm_compute. reflexivity.
  - left. reflexivity.
  - vm_compute. reflexivity.
  - simpl. lia.
Defined.

(** C8. When the write lookup answers a write committed at or after the
    start_ts together with an internal error, the conflict is reported and
    the error is dropped: the answer is the write-conflict key error with a
    nil error, and the loop of [PrepareWrites] goes on with the next
    mutation instead of aborting. *)
Theorem prewrite_conflict_before_error p mut txn w commitTs e :
  lookupWrite (Reader txn) (Mutation.Key mut) = (Some w, commitTs, Some e) ->
  StartTS txn <= commitTs ->
  let keyError :=
    {| KeyError.Locked := None;
       KeyError.Retryable := EmptyString;
       KeyError.Conflict :=
         Some {| WriteConflict.StartTs := StartTS txn;
                 WriteConflict.ConflictTs := commitTs;
                 WriteConflict.Key := Mutation.Key mut;
                 WriteConflict.Primary :=
                   PrewriteRequest.PrimaryLock (request p) |} |} in
  prewriteMutation p mut txn = ((Some keyError, None), txn)
  /\ forall rest response,
       prewriteAll p (mut :: rest) response txn =
       prewriteAll p rest
         {| PrewriteResponse.Errors :=
              PrewriteResponse.Errors response ++ [keyError] |} txn.
Proof.
  intros Hw Hts keyError.
  pose proof (conflict_branch p mut txn w commitTs (Some e) Hw Hts) as Hrun.
  split; [exact Hrun|].
  intros rest response. simpl.
  unfold mbind at 1, Txn_bind at 1. rewrite Hrun. reflexivity.
Qed.

Lemma prewrite_conflict_before_error_witness :
  let txn := NewTxn writeLookupConflictAndError 10 in
  let keyError :=
    {| KeyError.Locked := None;
       KeyError.Retryable := EmptyString;
       KeyError.Conflict :=
         Some {| WriteConflict.StartTs := 10;
                 WriteConflict.ConflictTs := 11;
                 WriteConflict.Key := keyA;
                 WriteConflict.Primary := keyA |} |} in
  prewriteMutation (prewriteOf [putA; delB]) putA txn =
    ((Some keyError, None), txn)
  /\ forall rest response,
       prewriteAll (prewriteOf [putA; delB]) (putA :: rest) response txn =
       prewriteAll (prewriteOf [putA; delB]) rest
         {| PrewriteResponse.Errors :=
              PrewriteResponse.Errors response ++ [keyError] |} txn.
Proof.
  intros txn.
  apply (prewrite_conflict_before_error (prewriteOf [putA; delB]) putA txn
           {| Write.StartTS := 9; Write.Kind := WriteKindPut |} 11
           "engine failure"%string).
  - reflexivity.
  - simpl. lia.
Defined.

Lemma wrap32_succ op :
  int32_min <= op < int32_max -> wrap32 (op + 1) = op + 1.
Proof.
  unfold wrap32, int32_min, int32_max. intros H.
  rewrite Z.mod_small by lia. lia.
Qed.

Lemma wrap32_succ_max : wrap32 (int32_max + 1) = int32_min.
Proof. reflexivity. Qed.

(** C4. If the conflict check passes and the key has no lock,
    [prewriteMutation] succeeds and stages exactly: a lock with the primary
    key and the TTL of the request, the start_ts of the transaction and the
    kind computed from the operation; then the value of the mutation for a
    Put, a tombstone for a Delete (and nothing for another operation). No
    write record is among them. *)
Theorem prewrite_installs_lock_and_value p mut txn w commitTs :
  lookupWrite (Reader txn) (Mutation.Key mut) = (w, commitTs, None) ->
  w = None \/ commitTs < StartTS txn ->
  lookupLock (Reader txn) (Mutation.Key mut) = (None, None) ->
  let lock :=
    {| Lock.Primary := PrewriteRequest.PrimaryLock (request p);
       Lock.Ts := StartTS txn;
       Lock.Ttl := PrewriteRequest.LockTtl (request p);
       Lock.Kind := wrap32 (Mutation.Op mut + 1) |} in
  (prewriteMutation p mut txn).1 = (None, None)
  /\ stagedSince txn (prewriteMutation p mut txn).2 =
       PutLockM (Mutation.Key mut) lock ::
       (if Mutation.Op mut =? Op_Put
        then [PutValueM (Mutation.Key mut) (StartTS txn) (Mutation.Value mut)]
        else if Mutation.Op mut =? Op_Del
             then [DeleteValueM (Mutation.Key mut) (StartTS txn)]
             else [])
  /\ (forall m, m ∈ stagedSince txn (prewriteMutation p mut txn).2 ->
        is_write_modify m = false).
Proof.
  intros Hw Hc Hl lock.
  rewrite (install_branch p mut txn w commitTs None Hw Hc Hl). simpl.
  rewrite stagedSince_app. fold lock.
  split; [reflexivity | split; [reflexivity|]].
  intros m Hm. apply elem_of_cons in Hm as [-> | Hm]; [reflexivity|].
  destruct (Mutation.Op mut =? Op_Put); [|destruct (Mutation.Op mut =? Op_Del)].
  - apply list_elem_of_singleton in Hm as ->. reflexivity.
  - apply list_elem_of_singleton in Hm as ->. reflexivity.
  - apply elem_of_nil in Hm. contradiction.
Qed.

Lemma prewrite_installs_lock_and_value_witness :
  let txn := NewTxn (readerOf committedStore) 12 in
  let p := prewriteOf [delB; putA] in
  (prewriteMutation p putA txn).1 = (None, None)
  /\ stagedSince txn (prewriteMutation p putA txn).2 =
       [PutLockM keyA
          {| Lock.Primary := keyA; Lock.Ts := 12; Lock.Ttl := 3000;
             Lock.Kind := 1 |};
        PutValueM keyA 12 valueV1]
  /\ (forall m, m ∈ stagedSince txn (prewriteMutation p putA txn).2 ->
        is_write_modify m = false).
Proof.
  intros txn p.
  apply (prewrite_installs_lock_and_value p putA txn
           (Some {| Write.StartTS := 9; Write.Kind := WriteKindPut |}) 11).
  - vm_compute. reflexivity.
  - right. simpl. lia.
  - vm_compute. reflexivity.
Defined.

(** C7. The lock installed for a Put has the Put write kind and the lock
    installed for a Delete has the Delete write kind: on a key that passes
    the conflict check and has no lock, what is staged for a Put is the
    Put-lock and the value, and for a Delete the Delete-lock and the
    tombstone. *)
Theorem prewrite_lock_kind_of_op p mut txn w commitTs :
  lookupWrite (Reader txn) (Mutation.Key mut) = (w, commitTs, None) ->
  w = None \/ commitTs < StartTS txn ->
  lookupLock (Reader txn) (Mutation.Key mut) = (None, None) ->
  let lockOfKind kind :=
    {| Lock.Primary := PrewriteRequest.PrimaryLock (request p);
       Lock.Ts := StartTS txn;
       Lock.Ttl := PrewriteRequest.LockTtl (request p);
       Lock.Kind := kind |} in
  (Mutation.Op mut = Op_Put ->
   stagedSince txn (prewriteMutation p mut txn).2 =
     [PutLockM (Mutation.Key mut) (lockOfKind WriteKindPut);
      PutValueM (Mutation.Key mut) (StartTS txn) (Mutation.Value mut)])
  /\ (Mutation.Op mut = Op_Del ->
      stagedSince txn (prewriteMutation p mut txn).2 =
        [PutLockM (Mutation.Key mut) (lockOfKind WriteKindDelete);
         DeleteValueM (Mutation.Key mut) (StartTS txn)]).
Proof.
  intros Hw Hc Hl lockOfKind.
  rewrite (install_branch p mut txn w commitTs None Hw Hc Hl). simpl.
  rewrite stagedSince_app.
  split; intros ->; reflexivity.
Qed.

Lemma prewrite_lock_kind_of_op_witness :
  let txn := NewTxn (readerOf emptyStore) 10 in
  let p := prewriteOf [putA; delB] in
  let lockOfKind kind :=
    {| Lock.Primary := keyA; Lock.Ts := 10; Lock.Ttl := 3000;
       Lock.Kind := kind |} in
  stagedSince txn (prewriteMutation p putA txn).2 =
    [PutLockM keyA (lockOfKind WriteKindPut); PutValueM keyA 10 valueV1]
  /\ stagedSince txn (prewriteMutation p delB txn).2 =
       [PutLockM keyB (lockOfKind WriteKindDelete); DeleteValueM keyB 10].
Proof.
  intros txn p lockOfKind. split.
  - apply (proj1 (prewrite_lock_kind_of_op p putA txn None 0
                    ltac:(vm_compute; reflexivity)
                    ltac:(left; reflexivity)
                    ltac:(vm_compute; reflexivity))).
    reflexivity.
  - apply (proj2 (prewrite_lock_kind_of_op p delB txn None 0
                    ltac:(vm_compute; reflexivity)
                    ltac:(left; reflexivity)
                    ltac:(vm_compute; reflexivity))).
    reflexivity.
Defined.

(** The most recent write of a key is the one with the largest
    commit_ts; a key without history has none. *)
Example lookupWrite_committedStore :
  lookupWrite (readerOf committedStore) keyA =
    (Some {| Write.StartTS := 9; Write.Kind := WriteKindPut |}, 11, None)
  /\ lookupWrite (readerOf committedStore) keyB = (None, 0, None).
Proof. split; vm_compute; reflexivity. Qed.

(** C9, as amended. For an operation that is neither Put nor Delete, on a
    key that passes the conflict check and has no lock, [prewriteMutation]
    succeeds and stages one lock and nothing else; the kind of the lock is
    the operation code plus one in 32-bit arithmetic: the code plus one for
    every code below the largest, and the smallest 32-bit integer for the
    largest code. *)
Theorem prewrite_other_op p mut txn w commitTs :
  Mutation.Op mut <> Op_Put ->
  Mutation.Op mut <> Op_Del ->
  lookupWrite (Reader txn) (Mutation.Key mut) = (w, commitTs, None) ->
  w = None \/ commitTs < StartTS txn ->
  lookupLock (Reader txn) (Mutation.Key mut) = (None, None) ->
  (prewriteMutation p mut txn).1 = (None, None)
  /\ stagedSince txn (prewriteMutation p mut txn).2 =
       [PutLockM (Mutation.Key mut)
          {| Lock.Primary := PrewriteRequest.PrimaryLock (request p);
             Lock.Ts := StartTS txn;
             Lock.Ttl := PrewriteRequest.LockTtl (request p);
             Lock.Kind := wrap32 (Mutation.Op mut + 1) |}]
  /\ (int32_min <= Mutation.Op mut < int32_max ->
      wrap32 (Mutation.Op mut + 1) = Mutation.Op mut + 1)
  /\ (Mutation.Op mut = int32_max ->
      wrap32 (Mutation.Op mut + 1) = int32_min).
Proof.
  intros Hput Hdel Hw Hc Hl.
  rewrite (install_branch p mut txn w commitTs None Hw Hc Hl). simpl.
  rewrite stagedSince_app.
  apply Z.eqb_neq in Hput, Hdel. rewrite Hput, Hdel.
  repeat split.
  - apply wrap32_succ.
  - intros ->. apply wrap32_succ_max.
Qed.

Lemma prewrite_other_op_witness :
  let txn := NewTxn (readerOf emptyStore) 10 in
  let p := prewriteOf [lockA] in
  (prewriteMutation p lockA txn).1 = (None, None)
  /\ stagedSince txn (prewriteMutation p lockA txn).2 =
       [PutLockM keyA
          {| Lock.Primary := keyA; Lock.Ts := 10; Lock.Ttl := 3000;
             Lock.Kind := wrap32 (Op_Lock + 1) |}]
  /\ (int32_min <= Op_Lock < int32_max -> wrap32 (Op_Lock + 1) = Op_Lock + 1)
  /\ (Op_Lock = int32_max -> wrap32 (Op_Lock + 1) = int32_min).
Proof.
  intros txn p.
  apply (prewrite_other_op p lockA txn None 0).
  - vm_compute. discriminate.
  - vm_compute. discriminate.
  - vm_compute. reflexivity.
  - left. reflexivity.
  - vm_compute. reflexivity.
Defined.

(** C9, as stated, fails: for the largest 32-bit operation code the kind of
    the staged lock is not the code plus one. *)
Lemma prewrite_other_op_plus_one_fails :
  ~ (forall p mut txn w commitTs,
       Mutation.Op mut <> Op_Put ->
       Mutation.Op mut <> Op_Del ->
       is_int32 (Mutation.Op mut) ->
       lookupWrite (Reader txn) (Mutation.Key mut) = (w, commitTs, None) ->
       w = None \/ commitTs < StartTS txn ->
       lookupLock (Reader txn) (Mutation.Key mut) = (None, None) ->
       exists lock,
         (prewriteMutation p mut txn).1 = (None, None)
         /\ stagedSince txn (prewriteMutation p mut txn).2 =
              [PutLockM (Mutation.Key mut) lock]
         /\ Lock.Kind lock = Mutation.Op mut + 1).
Proof.
  intros H.
  destruct (H (prewriteOf [lastOpA]) lastOpA (NewTxn (readerOf emptyStore) 10)
              None 0) as (lock & _ & Hstaged & Hkind).
  - vm_compute. discriminate.
  - vm_compute. discriminate.
  - vm_compute. split; discriminate.
  - vm_compute. reflexivity.
  - left. reflexivity.
  - vm_compute. reflexivity.
  - vm_compute in Hstaged. injection Hstaged as <-.
    vm_compute in Hkind. discriminate.
Qed.

(** C6. The error of the lock lookup is never looked at. When the lock
    lookup fails in the engine (no lock, an error), [prewriteMutation]
    still answers success and stages the lock and the value, and
    [PrepareWrites] reports full success instead of aborting. *)
Theorem prewrite_ignores_lock_lookup_error :
  let txn := NewTxn lockLookupFails 10 in
  let p := prewriteOf [putA] in
  lookupLock (Reader txn) keyA = (None, Some "engine failure"%string)
  /\ prewriteMutation p putA txn =
       ((None, None),
        {| StartTS := 10; Reader := lockLookupFails;
           writes :=
             [PutLockM keyA
                {| Lock.Primary := keyA; Lock.Ts := 10; Lock.Ttl := 3000;
                   Lock.Kind := WriteKindPut |};
              PutValueM keyA 10 valueV1] |})
  /\ (PrepareWrites p txn).1 =
       (Some {| PrewriteResponse.Errors := [] |}, None).
Proof. repeat split. Qed.

(** *** One mutation: frame and dependence on the reader *)

Lemma txn_eta txn :
  txn = {| StartTS := StartTS txn; Reader := Reader txn;
           writes := writes txn ++ [] |}.
Proof. destruct txn. simpl. rewrite app_nil_r. reflexivity. Qed.

(** [prewriteMutation] only appends to the buffer, and only modifications
    of its own key. *)
Lemma prewriteMutation_frame p mut txn :
  exists staged,
    prewriteMutation p mut txn =
      (verdict p txn mut,
       {| StartTS := StartTS txn; Reader := Reader txn;
          writes := writes txn ++ staged |})
    /\ Forall (prewriteShaped (Mutation.Key mut) (StartTS txn)) staged.
Proof.
  unfold verdict.
  destruct (lookupWrite (Reader txn) (Mutation.Key mut))
    as [[w cts] e] eqn:Hw.
  destruct (bool_decide (is_Some w) && (StartTS txn <=? cts)) eqn:Hc.
  { exists []. split; [|constructor].
    run_txn. rewrite Hw, Hc. simpl. f_equal. apply txn_eta. }
  destruct e as [e|].
  { exists []. split; [|constructor].
    run_txn. rewrite Hw, Hc. simpl. f_equal. apply txn_eta. }
  destruct (lookupLock (Reader txn) (Mutation.Key mut)) as [[l|] e'] eqn:Hl.
  { exists []. split; [|constructor].
    run_txn. rewrite Hw, Hc, Hl.
    destruct (Lock.Ts l =? StartTS txn); simpl; f_equal; apply txn_eta. }
  assert (Hpass : w = None \/ cts < StartTS txn).
  { apply andb_false_iff in Hc as [Hc | Hc].
    - left. destruct w; [|reflexivity].
      apply bool_decide_eq_false in Hc. exfalso. apply Hc. eauto.
    - right. apply Z.leb_gt. exact Hc. }
  rewrite (install_branch p mut txn w cts e' Hw Hpass Hl). simpl.
  eexists. split; [reflexivity|].
  constructor; [simpl; auto|].
  destruct (Mutation.Op mut =? Op_Put); [|destruct (Mutation.Op mut =? Op_Del)];
    repeat constructor.
Qed.

Lemma prewriteMutation_run p mut txn :
  prewriteMutation p mut txn =
    (verdict p txn mut,
     {| StartTS := StartTS txn; Reader := Reader txn;
        writes := writes txn ++ stagedBy p txn mut |}).
Proof.
  destruct (prewriteMutation_frame p mut txn) as (staged & Hrun & _).
  unfold stagedBy. rewrite Hrun. simpl.
  rewrite stagedSince_app. reflexivity.
Qed.

Lemma stagedBy_shaped p mut txn :
  Forall (prewriteShaped (Mutation.Key mut) (StartTS txn)) (stagedBy p txn mut).
Proof.
  destruct (prewriteMutation_frame p mut txn) as (staged & Hrun & Hshape).
  unfold stagedBy. rewrite Hrun. simpl.
  rewrite stagedSince_app. exact Hshape.
Qed.

(** The outcome and the staged modifications of a mutation depend on the
    transaction only through its start_ts and the two lookups of its key. *)
Lemma prewriteMutation_agree p mut txn1 txn2 :
  StartTS txn1 = StartTS txn2 ->
  lookupWrite (Reader txn1) (Mutation.Key mut) =
    lookupWrite (Reader txn2) (Mutation.Key mut) ->
  lookupLock (Reader txn1) (Mutation.Key mut) =
    lookupLock (Reader txn2) (Mutation.Key mut) ->
  verdict p txn1 mut = verdict p txn2 mut
  /\ stagedBy p txn1 mut = stagedBy p txn2 mut.
Proof.
  intros Hts Hw Hl.
  assert (Hrun : forall txn,
    prewriteMutation p mut txn =
    (let '(w, cts, e) := lookupWrite (Reader txn) (Mutation.Key mut) in
     let '(l, e') := lookupLock (Reader txn) (Mutation.Key mut) in
     (prewriteMutation p mut
        {| StartTS := StartTS txn;
           Reader := {| lookupWrite := fun _ => (w, cts, e);
                        lookupLock := fun _ => (l, e') |};
           writes := [] |}).1,
     {| StartTS := StartTS txn; Reader := Reader txn;
        writes := writes txn ++
          (let '(w, cts, e) := lookupWrite (Reader txn) (Mutation.Key mut) in
           let '(l, e') := lookupLock (Reader txn) (Mutation.Key mut) in
           writes (prewriteMutation p mut
             {| StartTS := StartTS txn;
                Reader := {| lookupWrite := fun _ => (w, cts, e);
                             lookupLock := fun _ => (l, e') |};
                writes := [] |}).2) |})).
  { intros txn. run_txn.
    destruct (lookupWrite (Reader txn) (Mutation.Key mut)) as [[w cts] e].
    destruct (lookupLock (Reader txn) (Mutation.Key mut)) as [l e'] eqn:Hl'.
    destruct (bool_decide (is_Some w) && (StartTS txn <=? cts)); simpl;
      [f_equal; apply txn_eta|].
    destruct e; simpl; [f_equal; apply txn_eta|].
    rewrite Hl'. destruct l as [l|]; simpl.
    - destruct (Lock.Ts l =? StartTS txn); simpl; f_equal; apply txn_eta.
    - destruct (Mutation.Op mut =? Op_Put);
        [|destruct (Mutation.Op mut =? Op_Del)];
        simpl; rewrite <- ?app_assoc; reflexivity. }
  unfold verdict, stagedBy.
  rewrite (Hrun txn1), (Hrun txn2). simpl.
  rewrite !stagedSince_app. rewrite Hts, Hw, Hl. split; reflexivity.
Qed.

(** *** The loop of [PrepareWrites] *)

Lemma prewriteAll_cons p m ms resp txn :
  prewriteAll p (m :: ms) resp txn =
    match verdict p txn m with
    | (Some keyError, _) =>
        prewriteAll p ms
          {| PrewriteResponse.Errors :=
               PrewriteResponse.Errors resp ++ [keyError] |}
          (extend txn (stagedBy p txn m))
    | (None, Some e) => ((None, Some e), extend txn (stagedBy p txn m))
    | (None, None) => prewriteAll p ms resp (extend txn (stagedBy p txn m))
    end.
Proof.
  simpl. unfold mbind at 1, Txn_bind at 1.
  rewrite prewriteMutation_run. fold (extend txn (stagedBy p txn m)).
  destruct (verdict p txn m) as [[ke|] [e|]]; reflexivity.
Qed.

Lemma extend_extend txn l1 l2 :
  extend (extend txn l1) l2 = extend txn (l1 ++ l2).
Proof. unfold extend. simpl. rewrite app_assoc. reflexivity. Qed.

Lemma extend_nil txn : extend txn [] = txn.
Proof. symmetry. apply txn_eta. Qed.

Section Loop.
Variables (p : Prewrite) (txn : MvccTxn).

Lemma onSnapshot_extend txn0 l :
  onSnapshot txn txn0 -> onSnapshot txn (extend txn0 l).
Proof. intros [? ?]. split; assumption. Qed.

Lemma onSnapshot_agree txn0 m :
  onSnapshot txn txn0 ->
  verdict p txn0 m = verdict p txn m /\ stagedBy p txn0 m = stagedBy p txn m.
Proof.
  intros [Hts Hr]. apply prewriteMutation_agree; [exact Hts | |];
    rewrite Hr; reflexivity.
Qed.

Lemma prewriteAll_collect ms : forall resp txn0,
  onSnapshot txn txn0 ->
  (forall m, m ∈ ms -> ~ internalError p txn m) ->
  prewriteAll p ms resp txn0 =
    ((Some {| PrewriteResponse.Errors :=
                PrewriteResponse.Errors resp ++
                omap (fun m => (verdict p txn m).1) ms |}, None),
     extend txn0 (flat_map (stagedBy p txn) ms)).
Proof.
  induction ms as [|m ms IH]; intros resp txn0 Hsnap Hok.
  - simpl. rewrite app_nil_r, extend_nil. destruct resp. reflexivity.
  - rewrite prewriteAll_cons.
    destruct (onSnapshot_agree txn0 m Hsnap) as [-> ->].
    assert (Hm : ~ internalError p txn m) by (apply Hok, elem_of_cons; left; reflexivity).
    assert (Hms : forall m', m' ∈ ms -> ~ internalError p txn m')
      by (intros m' Hin; apply Hok, elem_of_cons; right; exact Hin).
    simpl. unfold internalError in Hm.
    destruct (verdict p txn m) as [[ke|] [e|]]; simpl.
    + rewrite IH by (auto using onSnapshot_extend). simpl.
      rewrite extend_extend, <- app_assoc. reflexivity.
    + rewrite IH by (auto using onSnapshot_extend). simpl.
      rewrite extend_extend, <- app_assoc. reflexivity.
    + exfalso. apply Hm. eauto.
    + rewrite IH by (auto using onSnapshot_extend).
      rewrite extend_extend. reflexivity.
Qed.

Lemma prewriteAll_abort pre m post e : forall resp txn0,
  onSnapshot txn txn0 ->
  (forall m', m' ∈ pre -> ~ internalError p txn m') ->
  verdict p txn m = (None, Some e) ->
  prewriteAll p (pre ++ m :: post) resp txn0 =
    ((None, Some e), extend txn0 (flat_map (stagedBy p txn) (pre ++ [m]))).
Proof.
  induction pre as [|m0 pre IH]; intros resp txn0 Hsnap Hok Hm.
  - simpl app. rewrite prewriteAll_cons.
    destruct (onSnapshot_agree txn0 m Hsnap) as [-> ->].
    rewrite Hm. simpl. rewrite app_nil_r. reflexivity.
  - simpl app. rewrite prewriteAll_cons.
    destruct (onSnapshot_agree txn0 m0 Hsnap) as [-> ->].
    assert (Hm0 : ~ internalError p txn m0) by (apply Hok, elem_of_cons; left; reflexivity).
    assert (Hpre : forall m', m' ∈ pre -> ~ internalError p txn m')
      by (intros m' Hin; apply Hok, elem_of_cons; right; exact Hin).
    unfold internalError in Hm0.
    destruct (verdict p txn m0) as [[ke|] [e0|]]; simpl.
    + rewrite IH by (auto using onSnapshot_extend).
      rewrite extend_extend. reflexivity.
    + rewrite IH by (auto using onSnapshot_extend).
      rewrite extend_extend. reflexivity.
    + exfalso. apply Hm0. eauto.
    + rewrite IH by (auto using onSnapshot_extend).
      rewrite extend_extend. reflexivity.
Qed.

(** Either no mutation meets an internal error, or there is a first one
    that does. *)
Lemma first_internal_error ms :
  (forall m, m ∈ ms -> ~ internalError p txn m)
  \/ exists pre m post e,
       ms = pre ++ m :: post
       /\ (forall m', m' ∈ pre -> ~ internalError p txn m')
       /\ verdict p txn m = (None, Some e).
Proof.
  induction ms as [|m ms IH].
  - left. intros m Hin. apply elem_of_nil in Hin. contradiction.
  - destruct (verdict p txn m) as [[ke|] [e|]] eqn:Hv.
    3: { right. exists [], m, ms, e. split; [reflexivity|]. split; [|exact Hv].
         intros m' Hin. apply elem_of_nil in Hin. contradiction. }
    all: assert (Hm : ~ internalError p txn m)
           by (intros [e' He']; rewrite Hv in He'; discriminate).
    all: destruct IH as [IH | (pre & m1 & post & e1 & -> & Hpre & Hm1)];
      [ left; intros m' Hin;
        apply elem_of_cons in Hin as [-> | Hin]; [exact Hm | exact (IH _ Hin)]
      | right; exists (m :: pre), m1, post, e1;
        split; [reflexivity|]; split; [|exact Hm1];
        intros m' Hin; apply elem_of_cons in Hin as [-> | Hin];
        [exact Hm | exact (Hpre _ Hin)] ].
Qed.

End Loop.

Lemma omap_cons_eq {A B} (f : A -> option B) (a : A) (l : list A) :
  omap f (a :: l) =
    match f a with Some b => b :: omap f l | None => omap f l end.
Proof. reflexivity. Qed.

Lemma omap_ext_in {A B} (f g : A -> option B) (l : list A) :
  (forall x, x ∈ l -> f x = g x) -> omap f l = omap g l.
Proof.
  induction l as [|a l IH]; intros H; [reflexivity|].
  rewrite !omap_cons_eq.
  rewrite (H a) by (apply elem_of_cons; left; reflexivity).
  rewrite IH by (intros x Hx; apply H, elem_of_cons; right; exact Hx).
  reflexivity.
Qed.

Lemma flat_map_ext_in {A B} (f g : A -> list B) (l : list A) :
  (forall x, x ∈ l -> f x = g x) -> flat_map f l = flat_map g l.
Proof.
  induction l as [|a l IH]; intros H; [reflexivity|].
  simpl. rewrite (H a) by (apply elem_of_cons; left; reflexivity).
  rewrite IH by (intros x Hx; apply H, elem_of_cons; right; exact Hx).
  reflexivity.
Qed.

Lemma omap_nil_iff {A B} (f : A -> option B) (l : list A) :
  omap f l = [] <-> forall x, x ∈ l -> f x = None.
Proof.
  induction l as [|a l IH].
  - split; [|reflexivity]. intros _ x Hx. apply elem_of_nil in Hx. contradiction.
  - rewrite omap_cons_eq. destruct (f a) eqn:Hfa.
    + split; [discriminate|]. intros H.
      rewrite (H a) in Hfa by (apply elem_of_cons; left; reflexivity).
      discriminate.
    + rewrite IH. split.
      * intros H x Hx. apply elem_of_cons in Hx as [-> | Hx]; auto.
      * intros H x Hx. apply H, elem_of_cons. right. exact Hx.
Qed.

Lemma elem_of_flat_map {A B} (f : A -> list B) (l : list A) (y : B) :
  y ∈ flat_map f l -> exists x, x ∈ l /\ y ∈ f x.
Proof.
  induction l as [|a l IH]; simpl; intros Hy.
  - apply elem_of_nil in Hy. contradiction.
  - apply elem_of_app in Hy as [Hy | Hy].
    + exists a. split; [apply elem_of_cons; left; reflexivity | exact Hy].
    + destruct (IH Hy) as (x & Hx & Hyx).
      exists x. split; [apply elem_of_cons; right; exact Hx | exact Hyx].
Qed.

Lemma stagedSince_extend txn l : stagedSince txn (extend txn l) = l.
Proof. apply stagedSince_app. Qed.

Lemma onSnapshot_self txn : onSnapshot txn txn.
Proof. split; reflexivity. Qed.

Lemma PrepareWrites_collect p txn :
  (forall m, m ∈ PrewriteRequest.Mutations (request p) ->
     ~ internalError p txn m) ->
  PrepareWrites p txn =
    ((Some {| PrewriteResponse.Errors :=
                omap (fun m => (verdict p txn m).1)
                  (PrewriteRequest.Mutations (request p)) |}, None),
     extend txn
       (flat_map (stagedBy p txn) (PrewriteRequest.Mutations (request p)))).
Proof.
  intros Hok. unfold PrepareWrites.
  rewrite (prewriteAll_collect p txn _ _ txn (onSnapshot_self txn) Hok).
  reflexivity.
Qed.

Lemma PrepareWrites_abort p txn pre m post e :
  PrewriteRequest.Mutations (request p) = pre ++ m :: post ->
  (forall m', m' ∈ pre -> ~ internalError p txn m') ->
  verdict p txn m = (None, Some e) ->
  PrepareWrites p txn =
    ((None, Some e), extend txn (flat_map (stagedBy p txn) (pre ++ [m]))).
Proof.
  intros Hsplit Hpre Hm. unfold PrepareWrites. rewrite Hsplit.
  apply (prewriteAll_abort p txn pre m post e _ txn
           (onSnapshot_self txn) Hpre Hm).
Qed.

(** A response comes back only if no mutation met an internal error, and
    its error list is empty exactly when every mutation succeeded. *)
Lemma PrepareWrites_response p txn response :
  (PrepareWrites p txn).1 = (Some response, None) ->
  (forall m, m ∈ PrewriteRequest.Mutations (request p) ->
     ~ internalError p txn m)
  /\ (PrewriteResponse.Errors response = [] <->
      forall m, m ∈ PrewriteRequest.Mutations (request p) ->
        verdict p txn m = (None, None)).
Proof.
  intros Hrun.
  destruct (first_internal_error p txn (PrewriteRequest.Mutations (request p)))
    as [Hok | (pre & m & post & e & Hsplit & Hpre & Hm)].
  - split; [exact Hok|].
    rewrite (PrepareWrites_collect p txn Hok) in Hrun.
    injection Hrun as <-. simpl.
    rewrite omap_nil_iff. split.
    + intros Hnone m Hin. specialize (Hnone m Hin). specialize (Hok m Hin).
      unfold internalError in Hok.
      destruct (verdict p txn m) as [[ke|] [e|]]; simpl in Hnone;
        try discriminate; [exfalso; apply Hok; eauto | reflexivity].
    + intros Hall m Hin. rewrite (Hall m Hin). reflexivity.
  - rewrite (PrepareWrites_abort p txn pre m post e Hsplit Hpre Hm) in Hrun.
    discriminate.
Qed.

(** C5. Each mutation of the batch has the outcome it has when prewritten
    on its own on the snapshot of the transaction. If no mutation meets an
    internal error, [PrepareWrites] answers a response and no error, and the
    errors of the response are the key errors of the failing mutations, one
    each, in the order of the batch, however many there are; the list is
    empty exactly when every mutation succeeded. If some mutation meets an
    internal error, the first such error is returned with a nil response. *)
Theorem PrepareWrites_outcome p txn :
  let muts := PrewriteRequest.Mutations (request p) in
  ((forall m, m ∈ muts -> ~ internalError p txn m) ->
   (PrepareWrites p txn).1 =
     (Some {| PrewriteResponse.Errors :=
                omap (fun m => (verdict p txn m).1) muts |}, None))
  /\ (forall pre m post e,
        muts = pre ++ m :: post ->
        (forall m', m' ∈ pre -> ~ internalError p txn m') ->
        verdict p txn m = (None, Some e) ->
        (PrepareWrites p txn).1 = (None, Some e))
  /\ (forall response,
        (PrepareWrites p txn).1 = (Some response, None) ->
        (PrewriteResponse.Errors response = [] <->
         forall m, m ∈ muts -> verdict p txn m = (None, None))).
Proof.
  intros muts. subst muts. split; [|split].
  - intros Hok. rewrite (PrepareWrites_collect p txn Hok). reflexivity.
  - intros pre m post e Hsplit Hpre Hm.
    rewrite (PrepareWrites_abort p txn pre m post e Hsplit Hpre Hm).
    reflexivity.
  - intros response Hrun. apply (PrepareWrites_response p txn response Hrun).
Qed.

Lemma PrepareWrites_outcome_witness :
  (PrepareWrites (prewriteOf [putA; delB])
     (NewTxn (readerOf committedStore) 10)).1 =
    (Some {| PrewriteResponse.Errors :=
               [{| KeyError.Locked := None;
                   KeyError.Retryable := EmptyString;
                   KeyError.Conflict :=
                     Some {| WriteConflict.StartTs := 10;
                             WriteConflict.ConflictTs := 11;
                             WriteConflict.Key := keyA;
                             WriteConflict.Primary := keyA |} |}] |}, None)
  /\ (PrepareWrites (prewriteOf [delB; putA; lockA])
        (NewTxn (writeLookupFailsOn keyA) 10)).1 =
       (None, Some "engine failure"%string).
Proof.
  split.
  - apply (proj1 (PrepareWrites_outcome (prewriteOf [putA; delB])
                    (NewTxn (readerOf committedStore) 10))).
    intros m Hin [e He].
    apply elem_of_cons in Hin as [-> | Hin];
      [|apply list_elem_of_singleton in Hin as ->];
      vm_compute in He; discriminate.
  - apply (proj1 (proj2 (PrepareWrites_outcome (prewriteOf [delB; putA; lockA])
                           (NewTxn (writeLookupFailsOn keyA) 10)))
             [delB] putA [lockA]).
    + reflexivity.
    + intros m Hin [e He]. apply list_elem_of_singleton in Hin as ->.
      vm_compute in He. discriminate.
    + vm_compute. reflexivity.
Defined.

(** *** The keys of the command *)

Lemma WillWrite_acc muts : forall acc,
  fold_left (fun result m => result ++ [Mutation.Key m]) muts acc =
  acc ++ map Mutation.Key muts.
Proof.
  induction muts as [|m muts IH]; intros acc; simpl.
  - rewrite app_nil_r. reflexivity.
  - rewrite IH, <- app_assoc. reflexivity.
Qed.

Lemma WillWrite_map p :
  WillWrite p = map Mutation.Key (PrewriteRequest.Mutations (request p)).
Proof. unfold WillWrite. apply WillWrite_acc. Qed.

Lemma stagedBy_key p txn mut m :
  m ∈ stagedBy p txn mut -> modify_key m = Mutation.Key mut.
Proof.
  intros Hin.
  pose proof (stagedBy_shaped p mut txn) as Hshape.
  rewrite Forall_forall in Hshape. specialize (Hshape m Hin).
  destruct m; simpl in *; tauto.
Qed.

(** What a run of [PrepareWrites] stages is what some of its mutations
    stage on their own. *)
Lemma PrepareWrites_staged p txn :
  exists done,
    done ⊆ PrewriteRequest.Mutations (request p)
    /\ stagedSince txn (PrepareWrites p txn).2 =
         flat_map (stagedBy p txn) done.
Proof.
  destruct (first_internal_error p txn (PrewriteRequest.Mutations (request p)))
    as [Hok | (pre & m & post & e & Hsplit & Hpre & Hm)].
  - exists (PrewriteRequest.Mutations (request p)). split; [reflexivity|].
    rewrite (PrepareWrites_collect p txn Hok). simpl.
    apply stagedSince_extend.
  - exists (pre ++ [m]). split.
    + rewrite Hsplit. intros x Hx.
      apply elem_of_app in Hx as [Hx | Hx]; apply elem_of_app.
      * left. exact Hx.
      * right. apply list_elem_of_singleton in Hx as ->.
        apply elem_of_cons. left. reflexivity.
    + rewrite (PrepareWrites_abort p txn pre m post e Hsplit Hpre Hm). simpl.
      apply stagedSince_extend.
Qed.

Lemma agreeOn_mutation p txn1 txn2 m :
  agreeOn (WillWrite p) txn1 txn2 ->
  m ∈ PrewriteRequest.Mutations (request p) ->
  verdict p txn1 m = verdict p txn2 m
  /\ stagedBy p txn1 m = stagedBy p txn2 m.
Proof.
  intros [Hts Hkeys] Hin.
  assert (Hk : Mutation.Key m ∈ WillWrite p).
  { rewrite WillWrite_map. apply list_elem_of_fmap. exists m. auto. }
  destruct (Hkeys _ Hk) as [Hw Hl].
  apply prewriteMutation_agree; assumption.
Qed.

(** C10. [WillWrite] is the list of the keys of the mutations, in the order
    of the request, one entry per mutation, duplicates included. Every
    modification [PrepareWrites] stages is for one of these keys, and the
    outcome and the staged modifications of [PrepareWrites] are the same
    for two transactions whose lookups agree on these keys: no other key
    is read or written. *)
Theorem WillWrite_keys p :
  WillWrite p = map Mutation.Key (PrewriteRequest.Mutations (request p))
  /\ length (WillWrite p) = length (PrewriteRequest.Mutations (request p))
  /\ (forall txn m,
        m ∈ stagedSince txn (PrepareWrites p txn).2 ->
        modify_key m ∈ WillWrite p)
  /\ (forall txn1 txn2,
        agreeOn (WillWrite p) txn1 txn2 ->
        (PrepareWrites p txn1).1 = (PrepareWrites p txn2).1
        /\ stagedSince txn1 (PrepareWrites p txn1).2 =
           stagedSince txn2 (PrepareWrites p txn2).2).
Proof.
  split; [apply WillWrite_map|].
  split; [rewrite WillWrite_map; apply length_map|].
  split.
  - intros txn m Hin.
    destruct (PrepareWrites_staged p txn) as (done & Hsub & Hstaged).
    rewrite Hstaged in Hin.
    apply elem_of_flat_map in Hin as (mut & Hmut & Hin).
    rewrite (stagedBy_key p txn mut m Hin), WillWrite_map.
    apply list_elem_of_fmap. exists mut. split; [reflexivity|].
    apply Hsub. exact Hmut.
  - intros txn1 txn2 Hagree.
    pose proof (agreeOn_mutation p txn1 txn2) as Hsame.
    destruct (first_internal_error p txn1
                (PrewriteRequest.Mutations (request p)))
      as [Hok | (pre & m & post & e & Hsplit & Hpre & Hm)].
    + assert (Hok2 : forall m, m ∈ PrewriteRequest.Mutations (request p) ->
                ~ internalError p txn2 m).
      { intros m Hin [e He]. apply (Hok m Hin). exists e.
        rewrite (proj1 (Hsame m Hagree Hin)). exact He. }
      rewrite (PrepareWrites_collect p txn1 Hok).
      rewrite (PrepareWrites_collect p txn2 Hok2). simpl.
      rewrite !stagedSince_extend. split.
      * do 3 f_equal. apply omap_ext_in. intros m Hin.
        rewrite (proj1 (Hsame m Hagree Hin)). reflexivity.
      * apply flat_map_ext_in. intros m Hin.
        apply (proj2 (Hsame m Hagree Hin)).
    + assert (Hin_pre : forall m', m' ∈ pre ++ [m] ->
                m' ∈ PrewriteRequest.Mutations (request p)).
      { rewrite Hsplit. intros m' Hin.
        apply elem_of_app in Hin as [Hin | Hin]; apply elem_of_app.
        - left. exact Hin.
        - right. apply list_elem_of_singleton in Hin as ->.
          apply elem_of_cons. left. reflexivity. }
      assert (Hpre2 : forall m', m' ∈ pre -> ~ internalError p txn2 m').
      { intros m' Hin [e' He']. apply (Hpre m' Hin). exists e'.
        rewrite (proj1 (Hsame m' Hagree
                   (Hin_pre m' ltac:(apply elem_of_app; left; exact Hin)))).
        exact He'. }
      assert (Hm2 : verdict p txn2 m = (None, Some e)).
      { rewrite <- (proj1 (Hsame m Hagree
                   (Hin_pre m ltac:(apply elem_of_app; right;
                                    apply list_elem_of_singleton;
                                    reflexivity)))).
        exact Hm. }
      rewrite (PrepareWrites_abort p txn1 pre m post e Hsplit Hpre Hm).
      rewrite (PrepareWrites_abort p txn2 pre m post e Hsplit Hpre2 Hm2).
      simpl. rewrite !stagedSince_extend. split; [reflexivity|].
      apply flat_map_ext_in. intros m' Hin.
      apply (proj2 (Hsame m' Hagree (Hin_pre m' Hin))).
Qed.

Lemma WillWrite_keys_witness :
  let p := prewriteOf [delB] in
  let txn1 := NewTxn (readerOf emptyStore) 10 in
  let txn2 := NewTxn (readerOf (lockedStore 12)) 10 in
  WillWrite (prewriteOf [putA; delB; lockA]) = [keyA; keyB; keyA]
  /\ (PrepareWrites p txn1).1 = (PrepareWrites p txn2).1
  /\ stagedSince txn1 (PrepareWrites p txn1).2 =
     stagedSince txn2 (PrepareWrites p txn2).2.
Proof.
  intros p txn1 txn2. split.
  - apply (proj1 (WillWrite_keys (prewriteOf [putA; delB; lockA]))).
  - apply (proj2 (proj2 (proj2 (WillWrite_keys p))) txn1 txn2).
    split; [reflexivity|].
    intros k Hk. apply list_elem_of_singleton in Hk as ->.
    vm_compute. split; reflexivity.
Defined.

(** *** Flushing what a prewrite staged *)

Lemma flush_cons s m batch : flush s (m :: batch) = flush (applyModify s m) batch.
Proof. reflexivity. Qed.

(** A batch of prewrite modifications of the transaction [ts] leaves the
    write records alone, and leaves a lock of [ts] on every key that had
    one or gets one. *)
Lemma flush_prewrite ts batch : forall s,
  Forall (fun m => exists key, prewriteShaped key ts m) batch ->
  CfWrite (flush s batch) = CfWrite s
  /\ forall key,
       (exists l, CfLock s !! key = Some l /\ Lock.Ts l = ts)
       \/ (exists l, PutLockM key l ∈ batch) ->
       exists l, CfLock (flush s batch) !! key = Some l /\ Lock.Ts l = ts.
Proof.
  induction batch as [|m batch IH]; intros s Hshape.
  - split; [reflexivity|]. intros key [Hl | [l Hin]]; [exact Hl|].
    apply elem_of_nil in Hin. contradiction.
  - apply Forall_cons in Hshape as [[k Hm] Hshape].
    rewrite flush_cons.
    destruct (IH (applyModify s m) Hshape) as [Hw Hlock].
    split.
    + rewrite Hw. destruct m; simpl in *; tauto.
    + intros key Hkey. apply Hlock.
      destruct Hkey as [(l & Hl & Hts) | [l Hin]].
      * left. destruct m as [k' l'| | | |]; simpl in *; try tauto; eauto.
        destruct Hm as [-> Hts'].
        destruct (decide (k = key)) as [-> | Hne].
        -- exists l'. rewrite lookup_insert_eq. auto.
        -- exists l. rewrite lookup_insert_ne by exact Hne. auto.
      * apply elem_of_cons in Hin as [<- | Hin].
        -- left. simpl in *. destruct Hm as [-> Hts].
           exists l. rewrite lookup_insert_eq. auto.
        -- right. eauto.
Qed.

(** A mutation that succeeds passed the conflict check and either met the
    lock of its own transaction or staged one. *)
Lemma verdict_success p txn mut :
  verdict p txn mut = (None, None) ->
  (exists w cts,
     lookupWrite (Reader txn) (Mutation.Key mut) = (w, cts, None)
     /\ (w = None \/ cts < StartTS txn))
  /\ ((exists l e, lookupLock (Reader txn) (Mutation.Key mut) = (Some l, e)
                   /\ Lock.Ts l = StartTS txn)
      \/ (exists l, PutLockM (Mutation.Key mut) l ∈ stagedBy p txn mut)).
Proof.
  unfold verdict, stagedBy.
  destruct (lookupWrite (Reader txn) (Mutation.Key mut))
    as [[w cts] e] eqn:Hw.
  destruct (bool_decide (is_Some w) && (StartTS txn <=? cts)) eqn:Hc.
  { run_txn. rewrite Hw, Hc. simpl. discriminate. }
  assert (Hpass : w = None \/ cts < StartTS txn).
  { apply andb_false_iff in Hc as [Hc | Hc].
    - left. destruct w; [|reflexivity].
      apply bool_decide_eq_false in Hc. exfalso. apply Hc. eauto.
    - right. apply Z.leb_gt. exact Hc. }
  destruct e as [e|].
  { rewrite (internal_error_branch p mut txn w cts e Hw Hpass). discriminate. }
  intros Hv. split; [eauto|].
  destruct (lookupLock (Reader txn) (Mutation.Key mut)) as [[l|] e'] eqn:Hl.
  - left. exists l, e'. split; [reflexivity|].
    destruct (decide (Lock.Ts l = StartTS txn)) as [Heq | Hne]; [exact Heq|].
    rewrite (locked_branch p mut txn w cts l e' Hw Hpass Hl Hne) in Hv.
    discriminate.
  - right. rewrite (install_branch p mut txn w cts e' Hw Hpass Hl). simpl.
    rewrite stagedSince_app. eexists. apply elem_of_cons. left. reflexivity.
Qed.

Lemma flat_map_nil {A B} (f : A -> list B) (l : list A) :
  (forall x, x ∈ l -> f x = []) -> flat_map f l = [].
Proof.
  induction l as [|a l IH]; intros H; [reflexivity|].
  simpl. rewrite (H a) by (apply elem_of_cons; left; reflexivity).
  apply IH. intros x Hx. apply H, elem_of_cons. right. exact Hx.
Qed.

Lemma elem_of_flat_map_intro {A B} (f : A -> list B) (l : list A) x y :
  x ∈ l -> y ∈ f x -> y ∈ flat_map f l.
Proof.
  intros Hx Hy. apply list_elem_of_In, in_flat_map.
  exists x. split; apply list_elem_of_In; assumption.
Qed.

Lemma lookupWrite_readerOf s1 s2 key :
  CfWrite s1 = CfWrite s2 ->
  lookupWrite (readerOf s1) key = lookupWrite (readerOf s2) key.
Proof. intros H. simpl. rewrite H. reflexivity. Qed.

(** Prewriting again, on the store the first prewrite was flushed to,
    succeeds for every key and stages nothing. *)
Lemma PrepareWrites_retry p s ts response txn1 :
  PrepareWrites p (NewTxn (readerOf s) ts) = ((Some response, None), txn1) ->
  PrewriteResponse.Errors response = [] ->
  PrepareWrites p (NewTxn (readerOf (flush s (writes txn1))) ts) =
    ((Some {| PrewriteResponse.Errors := [] |}, None),
     NewTxn (readerOf (flush s (writes txn1))) ts).
Proof.
  intros Hrun Herrors.
  set (txn := NewTxn (readerOf s) ts) in *.
  assert (Hrun1 : (PrepareWrites p txn).1 = (Some response, None))
    by (rewrite Hrun; reflexivity).
  destruct (PrepareWrites_response p txn response Hrun1) as [Hok Hall].
  pose proof (proj1 Hall Herrors) as Hsuccess. clear Hall Herrors.
  rewrite (PrepareWrites_collect p txn Hok) in Hrun.
  injection Hrun as _ <-. simpl writes.
  set (batch := flat_map (stagedBy p txn)
                  (PrewriteRequest.Mutations (request p))).
  assert (Hshape : Forall (fun m => exists key, prewriteShaped key ts m) batch).
  { apply Forall_forall. intros m Hin.
    apply elem_of_flat_map in Hin as (mut & _ & Hin).
    pose proof (stagedBy_shaped p mut txn) as Hs.
    rewrite Forall_forall in Hs. exists (Mutation.Key mut). apply (Hs m Hin). }
  destruct (flush_prewrite ts batch s Hshape) as [Hwrite Hlock].
  set (s' := flush s batch) in *.
  set (txn2 := NewTxn (readerOf s') ts).
  assert (Hsecond : forall m, m ∈ PrewriteRequest.Mutations (request p) ->
            prewriteMutation p m txn2 = ((None, None), txn2)).
  { intros m Hin.
    destruct (verdict_success p txn m (Hsuccess m Hin))
      as [(w & cts & Hw & Hpass) Hown].
    destruct (Hlock (Mutation.Key m)) as (l' & Hl' & Hts').
    { destruct Hown as [(l & e & Hl & Hts) | [l Hl]].
      - left. exists l. simpl in Hl. split; [congruence | exact Hts].
      - right. exists l. apply (elem_of_flat_map_intro _ _ m); assumption. }
    apply (own_lock_branch p m txn2 w cts l' None).
    - unfold txn2. simpl Reader.
      rewrite (lookupWrite_readerOf s' s _ Hwrite). exact Hw.
    - exact Hpass.
    - simpl. rewrite Hl'. reflexivity.
    - exact Hts'. }
  assert (Hok2 : forall m, m ∈ PrewriteRequest.Mutations (request p) ->
            ~ internalError p txn2 m).
  { intros m Hin [e He]. unfold verdict in He.
    rewrite (Hsecond m Hin) in He. discriminate. }
  rewrite (PrepareWrites_collect p txn2 Hok2).
  rewrite (proj2 (omap_nil_iff _ _)).
  2: { intros m Hin. unfold verdict. rewrite (Hsecond m Hin). reflexivity. }
  rewrite flat_map_nil.
  2: { intros m Hin. unfold stagedBy. rewrite (Hsecond m Hin).
       apply stagedSince_same. }
  rewrite extend_nil. reflexivity.
Qed.

(** The first prewrite of a Put on a key without lock. *)
Lemma PrepareWrites_single_put p s ts mut w commitTs :
  PrewriteRequest.Mutations (request p) = [mut] ->
  Mutation.Op mut = Op_Put ->
  lookupWrite (readerOf s) (Mutation.Key mut) = (w, commitTs, None) ->
  w = None \/ commitTs < ts ->
  CfLock s !! Mutation.Key mut = None ->
  PrepareWrites p (NewTxn (readerOf s) ts) =
    ((Some {| PrewriteResponse.Errors := [] |}, None),
     {| StartTS := ts; Reader := readerOf s;
        writes :=
          [PutLockM (Mutation.Key mut)
             {| Lock.Primary := PrewriteRequest.PrimaryLock (request p);
                Lock.Ts := ts;
                Lock.Ttl := PrewriteRequest.LockTtl (request p);
                Lock.Kind := WriteKindPut |};
           PutValueM (Mutation.Key mut) ts (Mutation.Value mut)] |}).
Proof.
  intros Hmuts Hop Hw Hpass Hlock.
  unfold PrepareWrites. rewrite Hmuts. simpl.
  unfold mbind at 1, Txn_bind at 1.
  rewrite (install_branch p mut (NewTxn (readerOf s) ts) w commitTs None
             Hw Hpass) by (simpl; rewrite Hlock; reflexivity).
  rewrite Hop. reflexivity.
Qed.

(** C3. Prewrite is idempotent per key. If the conflict check passes and
    the key carries a lock with the start_ts of the transaction,
    [prewriteMutation] answers success (no key error, no internal error)
    and stages nothing. Hence a prewrite that is repeated after its first
    run was flushed to the store succeeds for every key and stages nothing;
    for a Put on a key without lock, the two runs together stage exactly
    one lock and one value, which are what the store holds afterwards. *)
Theorem prewrite_idempotent :
  (forall p mut txn w commitTs lock err,
     lookupWrite (Reader txn) (Mutation.Key mut) = (w, commitTs, None) ->
     w = None \/ commitTs < StartTS txn ->
     lookupLock (Reader txn) (Mutation.Key mut) = (Some lock, err) ->
     Lock.Ts lock = StartTS txn ->
     prewriteMutation p mut txn = ((None, None), txn)
     /\ stagedSince txn (prewriteMutation p mut txn).2 = [])
  /\ (forall p s ts response txn1,
        PrepareWrites p (NewTxn (readerOf s) ts) =
          ((Some response, None), txn1) ->
        PrewriteResponse.Errors response = [] ->
        let s' := flush s (writes txn1) in
        PrepareWrites p (NewTxn (readerOf s') ts) =
          ((Some {| PrewriteResponse.Errors := [] |}, None),
           NewTxn (readerOf s') ts))
  /\ (forall p s ts mut w commitTs,
        PrewriteRequest.Mutations (request p) = [mut] ->
        Mutation.Op mut = Op_Put ->
        lookupWrite (readerOf s) (Mutation.Key mut) = (w, commitTs, None) ->
        w = None \/ commitTs < ts ->
        CfLock s !! Mutation.Key mut = None ->
        let lock :=
          {| Lock.Primary := PrewriteRequest.PrimaryLock (request p);
             Lock.Ts := ts;
             Lock.Ttl := PrewriteRequest.LockTtl (request p);
             Lock.Kind := WriteKindPut |} in
        let first := PrepareWrites p (NewTxn (readerOf s) ts) in
        let s' := flush s (writes first.2) in
        let second := PrepareWrites p (NewTxn (readerOf s') ts) in
        first.1 = (Some {| PrewriteResponse.Errors := [] |}, None)
        /\ writes first.2 =
             [PutLockM (Mutation.Key mut) lock;
              PutValueM (Mutation.Key mut) ts (Mutation.Value mut)]
        /\ second.1 = (Some {| PrewriteResponse.Errors := [] |}, None)
        /\ writes second.2 = []
        /\ flush s' (writes second.2) = s'
        /\ CfLock s' !! Mutation.Key mut = Some lock
        /\ CfDefault s' !! (Mutation.Key mut, ts) = Some (Mutation.Value mut)).
Proof.
  split; [|split].
  - intros p mut txn w commitTs lock err Hw Hpass Hl Hts.
    rewrite (own_lock_branch p mut txn w commitTs lock err Hw Hpass Hl Hts).
    split; [reflexivity | apply stagedSince_same].
  - intros p s ts response txn1 Hrun Herrors s'.
    apply (PrepareWrites_retry p s ts response txn1 Hrun Herrors).
  - intros p s ts mut w commitTs Hmuts Hop Hw Hpass Hlock lock first s' second.
    pose proof (PrepareWrites_single_put p s ts mut w commitTs
                  Hmuts Hop Hw Hpass Hlock) as Hfirst.
    fold lock in Hfirst. fold first in Hfirst.
    pose proof (PrepareWrites_retry p s ts _ _ Hfirst eq_refl) as Hsecond.
    assert (Hs' : s' =
      flush s [PutLockM (Mutation.Key mut) lock;
               PutValueM (Mutation.Key mut) ts (Mutation.Value mut)]).
    { unfold s'. rewrite Hfirst. reflexivity. }
    simpl writes in Hsecond. rewrite <- Hs' in Hsecond.
    fold second in Hsecond.
    rewrite Hfirst, Hsecond. simpl.
    repeat split.
    + rewrite Hs'. simpl. apply lookup_insert_eq.
    + rewrite Hs'. simpl. apply lookup_insert_eq.
Qed.

Lemma prewrite_idempotent_witness :
  (let txn := NewTxn (readerOf (lockedStore 10)) 10 in
   prewriteMutation (prewriteOf [putA]) putA txn = ((None, None), txn))
  /\ (let p := prewriteOf [putA; delB; putA] in
      let first := PrepareWrites p (NewTxn (readerOf emptyStore) 10) in
      let s' := flush emptyStore (writes first.2) in
      PrepareWrites p (NewTxn (readerOf s') 10) =
        ((Some {| PrewriteResponse.Errors := [] |}, None),
         NewTxn (readerOf s') 10))
  /\ (let p := prewriteOf [putA] in
      let first := PrepareWrites p (NewTxn (readerOf committedStore) 12) in
      let s' := flush committedStore (writes first.2) in
      let second := PrepareWrites p (NewTxn (readerOf s') 12) in
      writes first.2 =
        [PutLockM keyA
           {| Lock.Primary := keyA; Lock.Ts := 12; Lock.Ttl := 3000;
              Lock.Kind := WriteKindPut |};
         PutValueM keyA 12 valueV1]
      /\ writes second.2 = []).
Proof.
  split; [|split].
  - intros txn.
    apply (proj1 prewrite_idempotent (prewriteOf [putA]) putA txn None 0
             (lockOf 10) None).
    + vm_compute. reflexivity.
    + left. reflexivity.
    + vm_compute. reflexivity.
    + reflexivity.
  - intros p first s'.
    apply (proj1 (proj2 prewrite_idempotent) p emptyStore 10
             {| PrewriteResponse.Errors := [] |} first.2).
    + vm_compute. reflexivity.
    + reflexivity.
  - intros p first s' second.
    destruct (proj2 (proj2 prewrite_idempotent) p committedStore 12 putA
                (Some {| Write.StartTS := 9; Write.Kind := WriteKindPut |}) 11)
      as (_ & Hfirst & _ & Hsecond & _).
    + reflexivity.
    + reflexivity.
    + vm_compute. reflexivity.
    + right. lia.
    + vm_compute. reflexivity.
    + split; [exact Hfirst | exact Hsecond].
Defined.

End PrewriteProofs.

(** * Further properties of the command *)

Module PrewriteMore.
Import kvrpcpb mvcc commands storage PrewriteSpec Scenario PrewriteInvariants.
Import PrewriteProofs.

Lemma prewriteMutation_path p mut txn : Path p mut txn.
Proof.
  destruct (lookupWrite (Reader txn) (Mutation.Key mut))
    as [[w cts] e] eqn:Hw.
  destruct (decide (StartTS txn <= cts)) as [Hle | Hgt].
  - destruct w as [w|].
    + eapply PathConflict; eauto.
    + destruct e as [e|]; [eapply PathInternal; eauto|].
      destruct (lookupLock (Reader txn) (Mutation.Key mut))
        as [[l|] e'] eqn:Hl.
      * destruct (decide (Lock.Ts l = StartTS txn)).
        -- eapply PathOwnLock; eauto.
        -- eapply PathLocked; eauto.
      * eapply PathInstall; eauto.
  - assert (Hpass : w = None \/ cts < StartTS txn) by (right; lia).
    destruct e as [e|]; [eapply PathInternal; eauto|].
    destruct (lookupLock (Reader txn) (Mutation.Key mut))
      as [[l|] e'] eqn:Hl.
    + destruct (decide (Lock.Ts l = StartTS txn)).
      * eapply PathOwnLock; eauto.
      * eapply PathLocked; eauto.
    + eapply PathInstall; eauto.
Qed.

(** X1. When the write lookup fails in the engine and answers no newer
    write, [prewriteMutation] returns that error, no key error, and stages
    nothing; the loop of [PrepareWrites] stops there with a nil response,
    whatever the response so far and the mutations left. *)
Theorem prewrite_write_lookup_error p mut txn w commitTs e :
  lookupWrite (Reader txn) (Mutation.Key mut) = (w, commitTs, Some e) ->
  w = None \/ commitTs < StartTS txn ->
  prewriteMutation p mut txn = ((None, Some e), txn)
  /\ forall rest response,
       prewriteAll p (mut :: rest) response txn = ((None, Some e), txn).
Proof.
  intros Hw Hpass.
  pose proof (internal_error_branch p mut txn w commitTs e Hw Hpass) as Hrun.
  split; [exact Hrun|].
  intros rest response. simpl.
  unfold mbind at 1, Txn_bind at 1. rewrite Hrun. reflexivity.
Qed.

Lemma prewrite_write_lookup_error_witness :
  let txn := NewTxn (writeLookupFailsOn keyA) 10 in
  let p := prewriteOf [putA; delB] in
  prewriteMutation p putA txn = ((None, Some "engine failure"%string), txn)
  /\ forall rest response,
       prewriteAll p (putA :: rest) response txn =
         ((None, Some "engine failure"%string), txn).
Proof.
  intros txn p.
  apply (prewrite_write_lookup_error p putA txn None 0).
  - vm_compute. reflexivity.
  - left. reflexivity.
Defined.

Lemma verdict_of_run p mut txn r txn' :
  prewriteMutation p mut txn = (r, txn') -> verdict p txn mut = r.
Proof. intros H. unfold verdict. rewrite H. reflexivity. Qed.

Lemma verdict_shape p txn mut :
  (exists ke, verdict p txn mut = (Some ke, None))
  \/ (exists e, verdict p txn mut = (None, Some e))
  \/ verdict p txn mut = (None, None).
Proof.
  destruct (prewriteMutation_path p mut txn)
    as [w cts err Hw Hle | w cts e Hw Hpass | w cts l err Hw Hpass Hl Hts
       | w cts l err Hw Hpass Hl Hts | w cts err Hw Hpass Hl].
  - left. eexists. eapply verdict_of_run, conflict_branch; eauto.
  - right. left. eexists. eapply verdict_of_run, internal_error_branch; eauto.
  - left. eexists. eapply verdict_of_run, locked_branch; eauto.
  - right. right. eapply verdict_of_run, own_lock_branch; eauto.
  - right. right. eapply verdict_of_run, install_branch; eauto.
Qed.

(** X2. [prewriteMutation] never answers a key error and an internal error
    together, so the loop of [PrepareWrites], which looks at the key error
    first, never drops an error it was handed; and [PrepareWrites] answers
    either a response without error or an error without response. *)
Theorem prewrite_answers_one_thing p txn :
  (forall mut ke e, verdict p txn mut <> (Some ke, Some e))
  /\ ((exists response, (PrepareWrites p txn).1 = (Some response, None))
      \/ (exists e, (PrepareWrites p txn).1 = (None, Some e))).
Proof.
  split.
  - intros mut ke e Hv.
    destruct (verdict_shape p txn mut) as [[ke' H] | [[e' H] | H]];
      rewrite H in Hv; discriminate.
  - destruct (first_internal_error p txn
                (PrewriteRequest.Mutations (request p)))
      as [Hok | (pre & m & post & e & Hsplit & Hpre & Hm)].
    + left. eexists. rewrite (PrepareWrites_collect p txn Hok). reflexivity.
    + right. exists e.
      rewrite (PrepareWrites_abort p txn pre m post e Hsplit Hpre Hm).
      reflexivity.
Qed.

Lemma failure_keeps_txn p mut txn :
  verdict p txn mut <> (None, None) -> prewriteMutation p mut txn =
                                         (verdict p txn mut, txn).
Proof.
  intros Hfail.
  destruct (prewriteMutation_path p mut txn)
    as [w cts err Hw Hle | w cts e Hw Hpass | w cts l err Hw Hpass Hl Hts
       | w cts l err Hw Hpass Hl Hts | w cts err Hw Hpass Hl].
  - unfold verdict. rewrite (conflict_branch p mut txn w cts err Hw Hle).
    reflexivity.
  - unfold verdict. rewrite (internal_error_branch p mut txn w cts e Hw Hpass).
    reflexivity.
  - unfold verdict.
    rewrite (locked_branch p mut txn w cts l err Hw Hpass Hl Hts).
    reflexivity.
  - exfalso. apply Hfail.
    eapply verdict_of_run, own_lock_branch; eauto.
  - exfalso. apply Hfail.
    eapply verdict_of_run, install_branch; eauto.
Qed.

(** X3. Only a success stages anything: whenever [prewriteMutation] answers
    a key error or an internal error, the transaction is left exactly as it
    was. *)
Theorem prewrite_failure_stages_nothing p mut txn :
  verdict p txn mut <> (None, None) ->
  (prewriteMutation p mut txn).2 = txn /\ stagedBy p txn mut = [].
Proof.
  intros Hfail. unfold stagedBy.
  rewrite (failure_keeps_txn p mut txn Hfail). simpl.
  split; [reflexivity | apply stagedSince_same].
Qed.

Lemma prewrite_failure_stages_nothing_witness :
  let txn := NewTxn (readerOf (lockedStore 12)) 10 in
  let p := prewriteOf [putA] in
  (prewriteMutation p putA txn).2 = txn /\ stagedBy p txn putA = [].
Proof.
  intros txn p.
  apply (prewrite_failure_stages_nothing p putA txn).
  vm_compute. discriminate.
Defined.

Lemma key_in_WillWrite p mut :
  mut ∈ PrewriteRequest.Mutations (request p) ->
  Mutation.Key mut ∈ WillWrite p.
Proof.
  intros Hin. rewrite WillWrite_map.
  apply list_elem_of_fmap. exists mut. auto.
Qed.

Lemma stagedBy_install p mut txn w cts err :
  lookupWrite (Reader txn) (Mutation.Key mut) = (w, cts, None) ->
  w = None \/ cts < StartTS txn ->
  lookupLock (Reader txn) (Mutation.Key mut) = (None, err) ->
  stagedBy p txn mut =
    PutLockM (Mutation.Key mut)
      {| Lock.Primary := PrewriteRequest.PrimaryLock (request p);
         Lock.Ts := StartTS txn;
         Lock.Ttl := PrewriteRequest.LockTtl (request p);
         Lock.Kind := wrap32 (Mutation.Op mut + 1) |} ::
    (if Mutation.Op mut =? Op_Put
     then [PutValueM (Mutation.Key mut) (StartTS txn) (Mutation.Value mut)]
     else if Mutation.Op mut =? Op_Del
          then [DeleteValueM (Mutation.Key mut) (StartTS txn)]
          else []).
Proof.
  intros Hw Hpass Hl. unfold stagedBy.
  rewrite (install_branch p mut txn w cts err Hw Hpass Hl). simpl.
  apply stagedSince_app.
Qed.

Lemma stagedBy_own_lock p mut txn w cts lock err :
  lookupWrite (Reader txn) (Mutation.Key mut) = (w, cts, None) ->
  w = None \/ cts < StartTS txn ->
  lookupLock (Reader txn) (Mutation.Key mut) = (Some lock, err) ->
  Lock.Ts lock = StartTS txn ->
  stagedBy p txn mut = [].
Proof.
  intros Hw Hpass Hl Hts. unfold stagedBy.
  rewrite (own_lock_branch p mut txn w cts lock err Hw Hpass Hl Hts).
  apply stagedSince_same.
Qed.

Lemma stagedBy_failure p mut txn :
  verdict p txn mut <> (None, None) -> stagedBy p txn mut = [].
Proof.
  intros Hfail. unfold stagedBy.
  rewrite (failure_keeps_txn p mut txn Hfail). apply stagedSince_same.
Qed.

(** What one mutation stages: nothing, or a lock followed by at most one
    change of the value. *)
Lemma stagedBy_cases p mut txn :
  stagedBy p txn mut = []
  \/ stagedBy p txn mut =
       PutLockM (Mutation.Key mut)
         {| Lock.Primary := PrewriteRequest.PrimaryLock (request p);
            Lock.Ts := StartTS txn;
            Lock.Ttl := PrewriteRequest.LockTtl (request p);
            Lock.Kind := wrap32 (Mutation.Op mut + 1) |} ::
       (if Mutation.Op mut =? Op_Put
        then [PutValueM (Mutation.Key mut) (StartTS txn) (Mutation.Value mut)]
        else if Mutation.Op mut =? Op_Del
             then [DeleteValueM (Mutation.Key mut) (StartTS txn)]
             else []).
Proof.
  destruct (prewriteMutation_path p mut txn)
    as [w cts err Hw Hle | w cts e Hw Hpass | w cts l err Hw Hpass Hl Hts
       | w cts l err Hw Hpass Hl Hts | w cts err Hw Hpass Hl].
  - left. apply stagedBy_failure.
    rewrite (verdict_of_run _ _ _ _ _ (conflict_branch p mut txn w cts err Hw Hle)).
    discriminate.
  - left. apply stagedBy_failure.
    rewrite (verdict_of_run _ _ _ _ _
               (internal_error_branch p mut txn w cts e Hw Hpass)).
    discriminate.
  - left. apply stagedBy_failure.
    rewrite (verdict_of_run _ _ _ _ _
               (locked_branch p mut txn w cts l err Hw Hpass Hl Hts)).
    discriminate.
  - left. eapply stagedBy_own_lock; eauto.
  - right. eapply stagedBy_install; eauto.
Qed.

Lemma stagedBy_ok p txn mut :
  mut ∈ PrewriteRequest.Mutations (request p) ->
  Forall (stagedOk p txn) (stagedBy p txn mut).
Proof.
  intros Hin.
  destruct (stagedBy_cases p mut txn) as [-> | ->]; [constructor|].
  constructor.
  - simpl. split; [apply key_in_WillWrite; exact Hin | auto].
  - destruct (Mutation.Op mut =? Op_Put) eqn:Hput;
      [|destruct (Mutation.Op mut =? Op_Del) eqn:Hdel].
    + constructor; [|constructor]. simpl. split; [reflexivity|].
      exists mut. apply Z.eqb_eq in Hput. auto.
    + constructor; [|constructor]. simpl. split; [reflexivity|].
      exists mut. apply Z.eqb_eq in Hdel. auto.
    + constructor.
Qed.

(** X4. Whatever the outcome, everything [PrepareWrites] stages is a lock
    of this transaction (primary key and TTL of the request, start_ts of
    the transaction) on a key of the batch, the value of a Put of the batch
    or the tombstone of a Delete of the batch, at the start_ts of the
    transaction. It never stages the removal of a lock or a write record. *)
Theorem PrepareWrites_stages_locks_and_values p txn :
  Forall (stagedOk p txn) (stagedSince txn (PrepareWrites p txn).2).
Proof.
  destruct (PrepareWrites_staged p txn) as (done & Hsub & ->).
  apply Forall_forall. intros m Hin.
  apply elem_of_flat_map in Hin as (mut & Hmut & Hin).
  pose proof (stagedBy_ok p txn mut (Hsub _ Hmut)) as Hok.
  rewrite Forall_forall in Hok. apply Hok. exact Hin.
Qed.

Lemma PrepareWrites_extends p txn :
  exists staged, (PrepareWrites p txn).2 = extend txn staged.
Proof.
  destruct (first_internal_error p txn
              (PrewriteRequest.Mutations (request p)))
    as [Hok | (pre & m & post & e & Hsplit & Hpre & Hm)].
  - eexists. rewrite (PrepareWrites_collect p txn Hok). reflexivity.
  - eexists. rewrite (PrepareWrites_abort p txn pre m post e Hsplit Hpre Hm).
    reflexivity.
Qed.

(** X5. [PrepareWrites] only appends to the buffer of the transaction:
    what was staged before stays, in place and in order, and the start_ts
    and the reader of the transaction are not changed. *)
Theorem PrepareWrites_only_appends p txn :
  StartTS (PrepareWrites p txn).2 = StartTS txn
  /\ Reader (PrepareWrites p txn).2 = Reader txn
  /\ writes (PrepareWrites p txn).2 =
       writes txn ++ stagedSince txn (PrepareWrites p txn).2
  /\ take (length (writes txn)) (writes (PrepareWrites p txn).2) = writes txn.
Proof.
  destruct (PrepareWrites_extends p txn) as (staged & ->).
  rewrite stagedSince_extend. simpl.
  repeat split. apply take_app_length.
Qed.

Lemma verdict_ok p txn mut ke err :
  mut ∈ PrewriteRequest.Mutations (request p) ->
  verdict p txn mut = (Some ke, err) ->
  keyErrorOk p txn ke.
Proof.
  intros Hin Hv.
  pose proof (key_in_WillWrite p mut Hin) as Hkey.
  destruct (prewriteMutation_path p mut txn)
    as [w cts e Hw Hle | w cts e Hw Hpass | w cts l e Hw Hpass Hl Hts
       | w cts l e Hw Hpass Hl Hts | w cts e Hw Hpass Hl].
  - rewrite (verdict_of_run _ _ _ _ _ (conflict_branch p mut txn w cts e Hw Hle))
      in Hv.
    injection Hv as <- _. split; [reflexivity|].
    eexists. split; [reflexivity|]. simpl. auto.
  - rewrite (verdict_of_run _ _ _ _ _
               (internal_error_branch p mut txn w cts e Hw Hpass)) in Hv.
    discriminate.
  - rewrite (verdict_of_run _ _ _ _ _
               (locked_branch p mut txn w cts l e Hw Hpass Hl Hts)) in Hv.
    injection Hv as <- _. split; [reflexivity|].
    eexists. split; [reflexivity|]. simpl. auto 10.
  - rewrite (verdict_of_run _ _ _ _ _
               (own_lock_branch p mut txn w cts l e Hw Hpass Hl Hts)) in Hv.
    discriminate.
  - rewrite (verdict_of_run _ _ _ _ _
               (install_branch p mut txn w cts e Hw Hpass Hl)) in Hv.
    discriminate.
Qed.

(** X6. Every key error of a response of [PrepareWrites] carries the
    conflict metadata of this transaction (its start_ts, the primary key of
    the request) for a key of the batch. Without lock information the
    conflicting timestamp is at or after the start_ts; with lock
    information it is the start_ts of that lock, which is another
    transaction's, and the lock information is for the same key. *)
Theorem PrepareWrites_errors_wellformed p txn response :
  (PrepareWrites p txn).1 = (Some response, None) ->
  Forall (keyErrorOk p txn) (PrewriteResponse.Errors response).
Proof.
  intros Hrun.
  destruct (PrepareWrites_response p txn response Hrun) as [Hok _].
  rewrite (PrepareWrites_collect p txn Hok) in Hrun.
  injection Hrun as <-. simpl.
  apply Forall_forall. intros ke Hin.
  apply list_elem_of_omap in Hin as (mut & Hmut & Hke).
  destruct (verdict p txn mut) as [ke' err] eqn:Hv. simpl in Hke. subst ke'.
  apply (verdict_ok p txn mut ke err Hmut Hv).
Qed.

Lemma PrepareWrites_errors_wellformed_witness :
  Forall (keyErrorOk (prewriteOf [putA; delB])
            (NewTxn (readerOf (lockedStore 12)) 10))
    [{| KeyError.Locked :=
          Some {| LockInfo.PrimaryLock := keyB; LockInfo.LockVersion := 12;
                  LockInfo.Key := keyA; LockInfo.LockTtl := 500 |};
        KeyError.Retryable := EmptyString;
        KeyError.Conflict :=
          Some {| WriteConflict.StartTs := 10; WriteConflict.ConflictTs := 12;
                  WriteConflict.Key := keyA; WriteConflict.Primary := keyA |} |}].
Proof.
  apply (PrepareWrites_errors_wellformed (prewriteOf [putA; delB])
           (NewTxn (readerOf (lockedStore 12)) 10)
           {| PrewriteResponse.Errors := _ |}).
  vm_compute. reflexivity.
Defined.

(** X7. After a [PrepareWrites] without any error, every key of the batch
    is covered by a lock of this transaction: one the snapshot already
    held, or one that is now staged. *)
Theorem PrepareWrites_success_locks_every_key p txn response :
  (PrepareWrites p txn).1 = (Some response, None) ->
  PrewriteResponse.Errors response = [] ->
  forall key, key ∈ WillWrite p ->
    (exists lock err,
       lookupLock (Reader txn) key = (Some lock, err)
       /\ Lock.Ts lock = StartTS txn)
    \/ (exists lock,
          PutLockM key lock ∈ stagedSince txn (PrepareWrites p txn).2
          /\ Lock.Ts lock = StartTS txn).
Proof.
  intros Hrun Herrors key Hkey.
  destruct (PrepareWrites_response p txn response Hrun) as [Hok Hall].
  pose proof (proj1 Hall Herrors) as Hsuccess.
  rewrite WillWrite_map in Hkey.
  apply list_elem_of_fmap in Hkey as (mut & -> & Hmut).
  destruct (verdict_success p txn mut (Hsuccess mut Hmut))
    as [_ [Hown | [lock Hstaged]]].
  - left. exact Hown.
  - right. exists lock. split.
    + rewrite (PrepareWrites_collect p txn Hok). simpl.
      rewrite stagedSince_extend.
      apply (elem_of_flat_map_intro _ _ mut); assumption.
    + pose proof (stagedBy_shaped p mut txn) as Hshape.
      rewrite Forall_forall in Hshape.
      apply (Hshape _ Hstaged).
Qed.

Lemma PrepareWrites_success_locks_every_key_witness :
  let p := prewriteOf [putA; delB] in
  let txn := NewTxn (readerOf (lockedStore 10)) 10 in
  ((exists lock err,
      lookupLock (Reader txn) keyA = (Some lock, err)
      /\ Lock.Ts lock = StartTS txn)
   \/ (exists lock,
         PutLockM keyA lock ∈ stagedSince txn (PrepareWrites p txn).2
         /\ Lock.Ts lock = StartTS txn))
  /\ ((exists lock err,
         lookupLock (Reader txn) keyB = (Some lock, err)
         /\ Lock.Ts lock = StartTS txn)
      \/ (exists lock,
            PutLockM keyB lock ∈ stagedSince txn (PrepareWrites p txn).2
            /\ Lock.Ts lock = StartTS txn)).
Proof.
  intros p txn.
  split.
  - apply (PrepareWrites_success_locks_every_key p txn
             {| PrewriteResponse.Errors := [] |}
             ltac:(vm_compute; reflexivity) eq_refl keyA).
    apply elem_of_cons. left. reflexivity.
  - apply (PrepareWrites_success_locks_every_key p txn
             {| PrewriteResponse.Errors := [] |}
             ltac:(vm_compute; reflexivity) eq_refl keyB).
    apply elem_of_cons. right. apply elem_of_cons. left. reflexivity.
Defined.

(** *** The request as [PrepareWrites] reads it *)

Lemma prewriteMutation_request p1 p2 mut txn :
  PrewriteRequest.PrimaryLock (request p1) =
    PrewriteRequest.PrimaryLock (request p2) ->
  PrewriteRequest.LockTtl (request p1) = PrewriteRequest.LockTtl (request p2) ->
  prewriteMutation p1 mut txn = prewriteMutation p2 mut txn.
Proof.
  intros Hprimary Httl. unfold prewriteMutation, conflictOf.
  rewrite Hprimary, Httl. reflexivity.
Qed.

Lemma verdict_request p1 p2 txn mut :
  PrewriteRequest.PrimaryLock (request p1) =
    PrewriteRequest.PrimaryLock (request p2) ->
  PrewriteRequest.LockTtl (request p1) = PrewriteRequest.LockTtl (request p2) ->
  verdict p1 txn mut = verdict p2 txn mut
  /\ stagedBy p1 txn mut = stagedBy p2 txn mut.
Proof.
  intros Hprimary Httl. unfold verdict, stagedBy.
  rewrite (prewriteMutation_request p1 p2 mut txn Hprimary Httl).
  split; reflexivity.
Qed.

Lemma prewriteAll_request p1 p2 muts :
  PrewriteRequest.PrimaryLock (request p1) =
    PrewriteRequest.PrimaryLock (request p2) ->
  PrewriteRequest.LockTtl (request p1) = PrewriteRequest.LockTtl (request p2) ->
  forall response txn,
    prewriteAll p1 muts response txn = prewriteAll p2 muts response txn.
Proof.
  intros Hprimary Httl.
  induction muts as [|m muts IH]; intros response txn; [reflexivity|].
  rewrite !prewriteAll_cons.
  destruct (verdict_request p1 p2 txn m Hprimary Httl) as [-> ->].
  destruct (verdict p2 txn m) as [[ke|] [e|]]; first [apply IH | reflexivity].
Qed.

(** X8. [PrepareWrites] reads the primary key, the TTL and the mutations of
    the request and nothing else: the start version of the request and the
    start_ts kept in the command do not enter the result or what is staged
    (the start_ts used is that of the transaction), nor the keys of
    [WillWrite]. *)
Theorem PrepareWrites_ignores_start_version b r ts txn :
  PrepareWrites (mkPrewrite b (withStartVersion r ts)) txn =
    PrepareWrites (NewPrewrite r) txn
  /\ WillWrite (mkPrewrite b (withStartVersion r ts)) =
       WillWrite (NewPrewrite r).
Proof.
  split; [|reflexivity].
  unfold PrepareWrites. simpl.
  apply prewriteAll_request; reflexivity.
Qed.

(** *** Batches in pieces and in another order *)

Lemma prewriteAll_app p ms1 ms2 : forall response txn,
  prewriteAll p (ms1 ++ ms2) response txn =
    match prewriteAll p ms1 response txn with
    | ((Some response1, _), txn1) => prewriteAll p ms2 response1 txn1
    | ((None, e), txn1) => ((None, e), txn1)
    end.
Proof.
  induction ms1 as [|m ms1 IH]; intros response txn; [reflexivity|].
  simpl app. rewrite !prewriteAll_cons.
  destruct (verdict p txn m) as [[ke|] [e|]]; first [apply IH | reflexivity].
Qed.

Lemma prewriteAll_response p ms : forall response txn,
  prewriteAll p ms response txn =
    match prewriteAll p ms {| PrewriteResponse.Errors := [] |} txn with
    | ((Some response', e), txn') =>
        ((Some {| PrewriteResponse.Errors :=
                    PrewriteResponse.Errors response ++
                    PrewriteResponse.Errors response' |}, e), txn')
    | ((None, e), txn') => ((None, e), txn')
    end.
Proof.
  induction ms as [|m ms IH]; intros response txn.
  - simpl. unfold mret, Txn_ret. rewrite app_nil_r.
    destruct response. reflexivity.
  - rewrite !prewriteAll_cons.
    destruct (verdict p txn m) as [[ke|] [e|]]; simpl.
    + rewrite IH. rewrite (IH {| PrewriteResponse.Errors := [ke] |}).
      destruct (prewriteAll p ms _ _) as [[[r'|] e'] txn']; simpl;
        rewrite <- ?app_assoc; reflexivity.
    + rewrite IH. rewrite (IH {| PrewriteResponse.Errors := [ke] |}).
      destruct (prewriteAll p ms _ _) as [[[r'|] e'] txn']; simpl;
        rewrite <- ?app_assoc; reflexivity.
    + reflexivity.
    + apply IH.
Qed.

(** X9. Prewriting a batch in two commands on the same transaction, the
    first part and then the rest, gives what prewriting it in one command
    gives: if the first command fails with an internal error so does the
    whole, otherwise the whole answers as the second command does, with the
    key errors of the first in front, and the buffer is the same. *)
Theorem PrepareWrites_split b r ms1 ms2 txn :
  PrepareWrites (mkPrewrite b (withMutations r (ms1 ++ ms2))) txn =
    match PrepareWrites (mkPrewrite b (withMutations r ms1)) txn with
    | ((Some response1, _), txn1) =>
        match PrepareWrites (mkPrewrite b (withMutations r ms2)) txn1 with
        | ((Some response2, e), txn2) =>
            ((Some {| PrewriteResponse.Errors :=
                        PrewriteResponse.Errors response1 ++
                        PrewriteResponse.Errors response2 |}, e), txn2)
        | ((None, e), txn2) => ((None, e), txn2)
        end
    | ((None, e), txn1) => ((None, e), txn1)
    end.
Proof.
  unfold PrepareWrites. simpl.
  set (p := mkPrewrite b (withMutations r (ms1 ++ ms2))).
  rewrite <- (prewriteAll_request p (mkPrewrite b (withMutations r ms1)) ms1
                eq_refl eq_refl).
  rewrite prewriteAll_app.
  destruct (prewriteAll p ms1 _ txn) as [[[r1|] e1] txn1]; [|reflexivity].
  rewrite <- (prewriteAll_request p (mkPrewrite b (withMutations r ms2)) ms2
                eq_refl eq_refl).
  apply prewriteAll_response.
Qed.

(** X10. The order of the mutations does not decide whether a batch goes
    through: if [PrepareWrites] answers a response for a batch, it answers
    one for every reordering of the batch, with the same key errors and the
    same staged modifications up to their order. *)
Theorem PrepareWrites_reordered b r ms1 ms2 txn response1 :
  ms1 ≡ₚ ms2 ->
  (PrepareWrites (mkPrewrite b (withMutations r ms1)) txn).1 =
    (Some response1, None) ->
  exists response2,
    (PrepareWrites (mkPrewrite b (withMutations r ms2)) txn).1 =
      (Some response2, None)
    /\ PrewriteResponse.Errors response1 ≡ₚ PrewriteResponse.Errors response2
    /\ stagedSince txn (PrepareWrites (mkPrewrite b (withMutations r ms1)) txn).2
       ≡ₚ
       stagedSince txn (PrepareWrites (mkPrewrite b (withMutations r ms2)) txn).2.
Proof.
  intros Hperm Hrun.
  set (p1 := mkPrewrite b (withMutations r ms1)) in *.
  set (p2 := mkPrewrite b (withMutations r ms2)).
  destruct (PrepareWrites_response p1 txn response1 Hrun) as [Hok1 _].
  assert (Hsame : forall m, verdict p1 txn m = verdict p2 txn m
                            /\ stagedBy p1 txn m = stagedBy p2 txn m)
    by (intros m; apply verdict_request; reflexivity).
  assert (Hok2 : forall m, m ∈ PrewriteRequest.Mutations (request p2) ->
            ~ internalError p2 txn m).
  { intros m Hin [e He]. apply (Hok1 m).
    - simpl in *. rewrite Hperm. exact Hin.
    - exists e. rewrite (proj1 (Hsame m)). exact He. }
  rewrite (PrepareWrites_collect p1 txn Hok1) in Hrun |- *.
  injection Hrun as <-.
  rewrite (PrepareWrites_collect p2 txn Hok2).
  eexists. split; [reflexivity|]. simpl.
  rewrite !stagedSince_extend. split.
  - rewrite (omap_ext_in _ (fun m => (verdict p2 txn m).1) ms1)
      by (intros m _; rewrite (proj1 (Hsame m)); reflexivity).
    rewrite Hperm. reflexivity.
  - rewrite (flat_map_ext_in _ (stagedBy p2 txn) ms1)
      by (intros m _; apply (proj2 (Hsame m))).
    apply Permutation_flat_map. exact Hperm.
Qed.

Lemma PrepareWrites_reordered_witness :
  exists response2,
    (PrepareWrites
       (mkPrewrite (mkCommandBase 10) (withMutations (requestOf []) [delB; putA]))
       (NewTxn (readerOf committedStore) 10)).1 = (Some response2, None)
    /\ PrewriteResponse.Errors
         {| PrewriteResponse.Errors :=
              [{| KeyError.Locked := None;
                  KeyError.Retryable := EmptyString;
                  KeyError.Conflict :=
                    Some {| WriteConflict.StartTs := 10;
                            WriteConflict.ConflictTs := 11;
                            WriteConflict.Key := keyA;
                            WriteConflict.Primary := keyA |} |}] |}
       ≡ₚ PrewriteResponse.Errors response2
    /\ stagedSince (NewTxn (readerOf committedStore) 10)
         (PrepareWrites
            (mkPrewrite (mkCommandBase 10)
               (withMutations (requestOf []) [putA; delB]))
            (NewTxn (readerOf committedStore) 10)).2
       ≡ₚ
       stagedSince (NewTxn (readerOf committedStore) 10)
         (PrepareWrites
            (mkPrewrite (mkCommandBase 10)
               (withMutations (requestOf []) [delB; putA]))
            (NewTxn (readerOf committedStore) 10)).2.
Proof.
  apply (PrepareWrites_reordered (mkCommandBase 10) (requestOf [])
           [putA; delB] [delB; putA] (NewTxn (readerOf committedStore) 10)).
  - apply Permutation_swap.
  - vm_compute. reflexivity.
Defined.

(** X11. An internal error does not undo what the batch staged before it:
    when [PrepareWrites] stops at a mutation, the buffer holds what the
    mutations before it staged, in their order, and nothing of the
    mutations after it. *)
Theorem PrepareWrites_abort_keeps_staged p txn pre m post e :
  PrewriteRequest.Mutations (request p) = pre ++ m :: post ->
  (forall m', m' ∈ pre -> ~ internalError p txn m') ->
  verdict p txn m = (None, Some e) ->
  stagedSince txn (PrepareWrites p txn).2 = flat_map (stagedBy p txn) pre.
Proof.
  intros Hsplit Hpre Hm.
  rewrite (PrepareWrites_abort p txn pre m post e Hsplit Hpre Hm). simpl.
  rewrite stagedSince_extend, flat_map_app. simpl.
  rewrite (stagedBy_failure p m txn) by (rewrite Hm; discriminate).
  rewrite !app_nil_r. reflexivity.
Qed.

Lemma PrepareWrites_abort_keeps_staged_witness :
  let p := prewriteOf [delB; putA; lockA] in
  let txn := NewTxn (writeLookupFailsOn keyA) 10 in
  stagedSince txn (PrepareWrites p txn).2 = flat_map (stagedBy p txn) [delB]
  /\ flat_map (stagedBy p txn) [delB] =
       [PutLockM keyB
          {| Lock.Primary := keyA; Lock.Ts := 10; Lock.Ttl := 3000;
             Lock.Kind := WriteKindDelete |};
        DeleteValueM keyB 10].
Proof.
  intros p txn. split; [|reflexivity].
  apply (PrepareWrites_abort_keeps_staged p txn [delB] putA [lockA]
           "engine failure"%string).
  - reflexivity.
  - intros m Hin [e He]. apply list_elem_of_singleton in Hin as ->.
    vm_compute in He. discriminate.
  - vm_compute. reflexivity.
Defined.

(** X12. A write conflict is a conflict for every older transaction too:
    if [prewriteMutation] reports a write conflict (a key error without
    lock information) at one start_ts, it reports the conflict with the
    same write at every smaller start_ts on the same snapshot. *)
Theorem prewrite_conflict_for_older p mut txn ts keyError conflict :
  ts <= StartTS txn ->
  verdict p txn mut = (Some keyError, None) ->
  KeyError.Locked keyError = None ->
  KeyError.Conflict keyError = Some conflict ->
  prewriteMutation p mut (atStartTS txn ts) =
    ((Some {| KeyError.Locked := None;
              KeyError.Retryable := EmptyString;
              KeyError.Conflict :=
                Some {| WriteConflict.StartTs := ts;
                        WriteConflict.ConflictTs :=
                          WriteConflict.ConflictTs conflict;
                        WriteConflict.Key := WriteConflict.Key conflict;
                        WriteConflict.Primary :=
                          WriteConflict.Primary conflict |} |}, None),
     atStartTS txn ts).
Proof.
  intros Hts Hv Hlocked Hconflict.
  destruct (prewriteMutation_path p mut txn)
    as [w cts e Hw Hle | w cts e Hw Hpass | w cts l e Hw Hpass Hl Hne
       | w cts l e Hw Hpass Hl Heq | w cts e Hw Hpass Hl].
  - rewrite (verdict_of_run _ _ _ _ _ (conflict_branch p mut txn w cts e Hw Hle))
      in Hv.
    injection Hv as <-. simpl in Hconflict. injection Hconflict as <-.
    apply (conflict_branch p mut (atStartTS txn ts) w cts e Hw).
    simpl. lia.
  - rewrite (verdict_of_run _ _ _ _ _
               (internal_error_branch p mut txn w cts e Hw Hpass)) in Hv.
    discriminate.
  - rewrite (verdict_of_run _ _ _ _ _
               (locked_branch p mut txn w cts l e Hw Hpass Hl Hne)) in Hv.
    injection Hv as <-. simpl in Hlocked. discriminate.
  - rewrite (verdict_of_run _ _ _ _ _
               (own_lock_branch p mut txn w cts l e Hw Hpass Hl Heq)) in Hv.
    discriminate.
  - rewrite (verdict_of_run _ _ _ _ _
               (install_branch p mut txn w cts e Hw Hpass Hl)) in Hv.
    discriminate.
Qed.

Lemma prewrite_conflict_for_older_witness :
  let txn := NewTxn (readerOf committedStore) 10 in
  prewriteMutation (prewriteOf [putA]) putA (atStartTS txn 3) =
    ((Some {| KeyError.Locked := None;
              KeyError.Retryable := EmptyString;
              KeyError.Conflict :=
                Some {| WriteConflict.StartTs := 3;
                        WriteConflict.ConflictTs := 11;
                        WriteConflict.Key := keyA;
                        WriteConflict.Primary := keyA |} |}, None),
     atStartTS txn 3).
Proof.
  intros txn.
  apply (prewrite_conflict_for_older (prewriteOf [putA]) putA txn 3
           {| KeyError.Locked := None;
              KeyError.Retryable := EmptyString;
              KeyError.Conflict :=
                Some {| WriteConflict.StartTs := 10;
                        WriteConflict.ConflictTs := 11;
                        WriteConflict.Key := keyA;
                        WriteConflict.Primary := keyA |} |}
           {| WriteConflict.StartTs := 10;
              WriteConflict.ConflictTs := 11;
              WriteConflict.Key := keyA;
              WriteConflict.Primary := keyA |}).
  - simpl. lia.
  - vm_compute. reflexivity.
  - reflexivity.
  - reflexivity.
Defined.

Lemma wrap32_pred_succ op : is_int32 op -> wrap32 (wrap32 (op + 1) - 1) = op.
Proof.
  unfold is_int32, int32_min, int32_max. intros H.
  destruct (decide (op = 2 ^ 31 - 1)) as [-> | Hne]; [reflexivity|].
  rewrite (wrap32_succ op) by (unfold int32_min, int32_max; lia).
  unfold wrap32. rewrite Z.mod_small by lia. lia.
Qed.

(** X13. The operation can be read back from the lock a mutation stages:
    for a 32-bit operation code, the kind of the staged lock minus one, in
    32-bit arithmetic, is the operation code; so two mutations that stage
    locks of the same kind have the same operation. *)
Theorem staged_lock_kind_gives_op p mut txn key lock :
  is_int32 (Mutation.Op mut) ->
  PutLockM key lock ∈ stagedBy p txn mut ->
  wrap32 (Lock.Kind lock - 1) = Mutation.Op mut.
Proof.
  intros Hop Hin.
  destruct (stagedBy_cases p mut txn) as [Hnil | Hstaged].
  - rewrite Hnil in Hin. apply elem_of_nil in Hin. contradiction.
  - rewrite Hstaged in Hin. apply elem_of_cons in Hin as [Heq | Hin].
    + injection Heq as _ ->. simpl. apply wrap32_pred_succ. exact Hop.
    + destruct (Mutation.Op mut =? Op_Put);
        [|destruct (Mutation.Op mut =? Op_Del)].
      * apply list_elem_of_singleton in Hin. discriminate.
      * apply list_elem_of_singleton in Hin. discriminate.
      * apply elem_of_nil in Hin. contradiction.
Qed.

Lemma staged_lock_kind_gives_op_witness :
  wrap32 (int32_min - 1) = Mutation.Op lastOpA.
Proof.
  apply (staged_lock_kind_gives_op (prewriteOf [lastOpA]) lastOpA
           (NewTxn (readerOf emptyStore) 10) keyA
           {| Lock.Primary := keyA; Lock.Ts := 10; Lock.Ttl := 3000;
              Lock.Kind := int32_min |}).
  - vm_compute. split; discriminate.
  - vm_compute. apply elem_of_cons. left. reflexivity.
Defined.

Lemma staged_counts p txn ms :
  (length (flat_map (stagedBy p txn) ms)
   + 2 * length (omap (fun m => (verdict p txn m).1) ms)
   <= 2 * length ms)%nat.
Proof.
  induction ms as [|m ms IH]; [simpl; lia|].
  rewrite omap_cons_eq. simpl flat_map. rewrite length_app.
  destruct (verdict p txn m) as [[ke|] err] eqn:Hv; simpl.
  - rewrite (stagedBy_failure p m txn) by (rewrite Hv; discriminate).
    simpl. lia.
  - assert (length (stagedBy p txn m) <= 2)%nat.
    { destruct (stagedBy_cases p m txn) as [-> | ->]; [simpl; lia|].
      destruct (Mutation.Op m =? Op_Put);
        [|destruct (Mutation.Op m =? Op_Del)]; simpl; lia. }
    lia.
Qed.

(** X14. A response of [PrepareWrites] has at most one key error per
    mutation, and what is staged is at most two modifications for each
    mutation that did not get a key error. *)
Theorem PrepareWrites_counts p txn response :
  (PrepareWrites p txn).1 = (Some response, None) ->
  (length (PrewriteResponse.Errors response)
   <= length (PrewriteRequest.Mutations (request p)))%nat
  /\ (length (stagedSince txn (PrepareWrites p txn).2)
      <= 2 * (length (PrewriteRequest.Mutations (request p))
              - length (PrewriteResponse.Errors response)))%nat.
Proof.
  intros Hrun.
  destruct (PrepareWrites_response p txn response Hrun) as [Hok _].
  rewrite (PrepareWrites_collect p txn Hok) in Hrun |- *.
  injection Hrun as <-. simpl. rewrite stagedSince_extend.
  pose proof (staged_counts p txn (PrewriteRequest.Mutations (request p))).
  lia.
Qed.

Lemma PrepareWrites_counts_witness :
  let p := prewriteOf [putA; delB] in
  let txn := NewTxn (readerOf committedStore) 10 in
  (1 <= 2)%nat
  /\ (length (stagedSince txn (PrepareWrites p txn).2) <= 2 * (2 - 1))%nat.
Proof.
  intros p txn.
  apply (PrepareWrites_counts p txn
           {| PrewriteResponse.Errors :=
                [{| KeyError.Locked := None;
                    KeyError.Retryable := EmptyString;
                    KeyError.Conflict :=
                      Some {| WriteConflict.StartTs := 10;
                              WriteConflict.ConflictTs := 11;
                              WriteConflict.Key := keyA;
                              WriteConflict.Primary := keyA |} |}] |}).
  vm_compute. reflexivity.
Defined.

End PrewriteMore.
